(** * The filestream harvester of filebeat: open, read loop, line filters

    A shallow embedding of [filebeat/input/filestream/input.go]
    ([initState], [open], [openFile], [initFileOffset], [readFromSource],
    [isDroppedLine], [matchAny]) together with the properties its
    specification states about them.

    Conventions.
    - Go's [int] and [int64] are modelled as [Z] with 64-bit two's-complement
      wrap-around written out ([wrap64]); [int] is 64 bits wide on the
      platforms the agent is built for.
    - A Go [string] and a [[]byte] are sequences of 8-bit characters:
      [String.string].
    - [mapstr.M] (a [map[string]interface{}]) is a [gmap string value].
    - Multi-valued returns [(x, err)] are tuples whose error component is an
      [option error]; [None] is Go's [nil]. *)

From stdpp Require Import base numbers strings list gmap pretty.
From Stdlib Require Import ZArith Lia Sorted.

Local Open Scope Z_scope.

(** ** Fixed-width integers *)

Definition min_int64 : Z := - 2 ^ 63.
Definition max_int64 : Z := 2 ^ 63 - 1.

Definition in_int64 (x : Z) : Prop := min_int64 <= x <= max_int64.

(** Two's-complement reduction of a mathematical integer to 64 bits. *)
Definition wrap64 (x : Z) : Z := (x + 2 ^ 63) mod 2 ^ 64 - 2 ^ 63.

Definition add64 (x y : Z) : Z := wrap64 (x + y).
Definition mul64 (x y : Z) : Z := wrap64 (x * y).

(** ** Errors

    Go error values.  [Wrap] is [fmt.Errorf("...: %w", err)]; [errors_Is]
    walks the chain the way [errors.Is] does. *)

Inductive error : Type :=
| ErrFileTruncate
| ErrClosed
| io_EOF
| transform_ErrShortSrc
| ErrOther (msg : string)
| Wrap (msg : string) (inner : error).

#[global] Instance error_eq_dec : EqDecision error.
Proof. solve_decision. Defined.

Fixpoint errors_Is (err target : error) : bool :=
  if decide (err = target) then true
  else match err with
       | Wrap _ inner => errors_Is inner target
       | _ => false
       end.

(** ** Line filters *)

(** [match.Matcher], seen through its [MatchString] method. *)
Definition Matcher : Type := string -> bool.

Fixpoint matchAny (matchers : list Matcher) (text : string) : bool :=
  match matchers with
  | [] => false
  | m :: rest => if m text then true else matchAny rest text
  end.

(** A literal pattern: matches the texts that contain it. *)
Fixpoint has_prefix (p s : string) : bool :=
  match p, s with
  | EmptyString, _ => true
  | String a p', String b s' => if decide (a = b) then has_prefix p' s' else false
  | String _ _, EmptyString => false
  end.

Fixpoint contains (p s : string) : bool :=
  if has_prefix p s then true
  else match s with
       | EmptyString => false
       | String _ s' => contains p s'
       end.

(** The line terminator convention ([readfile.LineTerminator]); the agent
    only passes it on. *)
Inductive readfile_LineTerminator : Type :=
| AutoLineTerminator | LineFeed | CarriageReturn | CarriageReturnLineFeed
| OtherTerminator (code : Z).

(** The part of [readerConfig] the harvester reads. *)
Record readerConfig : Type := {
  BufferSize : Z;
  ExcludeLines : list Matcher;
  IncludeLines : list Matcher;
  LineTerminator : readfile_LineTerminator;
  MaxBytes : Z
}.

Definition isDroppedLine (rc : readerConfig) (line : string) : bool :=
  if (0 <? Z.of_nat (length (IncludeLines rc))) && negb (matchAny (IncludeLines rc) line)
  then true
  else if (0 <? Z.of_nat (length (ExcludeLines rc))) && matchAny (ExcludeLines rc) line
  then true
  else false.

(** ** Files, as the harvester sees them *)

(** [os.FileInfo]: the mode bits the harvester tests, the size and the base
    name. *)
Record FileInfo : Type := {
  Mode_NamedPipe : bool;
  Mode_IsRegular : bool;
  Size : Z;
  Name : string
}.

(** What the operating system answers for one opened file. *)
Record Handle : Type := {
  Stat_result : error + FileInfo;
  Seek_error : option error
}.

(** The file system at the time of the open. *)
Record FileSystem : Type := {
  os_Stat : string -> error + FileInfo;
  file_ReadOpen : string -> error + Handle
}.

(** An [*os.File]: its descriptor, its read position, whether it was
    closed. *)
Record File : Type := {
  fd : Handle;
  position : Z;
  closed : bool
}.

(** [f.Seek(offset, io.SeekCurrent)]. *)
Definition File_Seek (f : File) (offset : Z) : File * option error :=
  match Seek_error (fd f) with
  | Some e => (f, Some e)
  | None => ({| fd := fd f; position := position f + offset; closed := closed f |}, None)
  end.

(** ** Configuration and sources *)

Record readerCloserConfig : Type := {
  AfterInterval : Z;
  OnEOF : bool
}.

Record state : Type := { Offset : Z }.

Record takeOverConfig : Type := { Enabled : bool }.

(** The device and inode of a file ([file.StateOS]). *)
Record StateOS : Type := {
  Inode : Z;
  Device : Z
}.

(** [file.ExtendedFileInfo]: the file information together with the
    operating system's identity of the file. *)
Record ExtendedFileInfo : Type := {
  FileInfo_ : FileInfo;
  GetOSState : StateOS
}.

Record FileDescriptor : Type := {
  Info : ExtendedFileInfo;
  Fingerprint : string
}.

Record fileSource : Type := {
  desc : FileDescriptor;
  newPath : string;
  oldPath : string;
  truncated : bool;
  archived : bool;
  fileID : string
}.

(** A [loginp.Source] is a [fileSource] or something else. *)
Inductive loginp_Source : Type :=
| IsFileSource (fs : fileSource)
| NotFileSource (name : string).

(** ** Cursors *)

(** What the store holds for a source: a packed offset state, or data that
    does not unpack into one. *)
Inductive cursor_data : Type :=
| PackedState (st : state)
| Undecodable (err : error).

(** Modelled from the spec: [loginp.Cursor] and its methods [IsNew] and
    [Unpack] are declared in the input-logfile package, which is not part of
    the sources at hand.  The specification has a cursor that is absent (a
    new source) or present with the persisted offset; unpacking a present
    cursor yields the stored state or fails, and a failure leaves the
    destination as it was. *)
Inductive loginp_Cursor : Type :=
| AbsentCursor
| StoredCursor (data : cursor_data).

Definition Cursor_IsNew (c : loginp_Cursor) : bool :=
  match c with
  | AbsentCursor => true
  | StoredCursor _ => false
  end.

Definition Cursor_Unpack (c : loginp_Cursor) (to : state) : state * option error :=
  match c with
  | AbsentCursor => (to, None)
  | StoredCursor (PackedState st) => (st, None)
  | StoredCursor (Undecodable err) => (to, Some err)
  end.

(** The offset the store holds, when it holds one. *)
Definition stored_offset (c : loginp_Cursor) : option Z :=
  match c with
  | StoredCursor (PackedState st) => Some (Offset st)
  | _ => None
  end.

Definition initState (c : loginp_Cursor) (s : fileSource) : state :=
  let state0 := {| Offset := 0 |} in
  if Cursor_IsNew c || truncated s then state0
  else fst (Cursor_Unpack c state0).

(** ** Messages, events and metrics *)

(** The values a [mapstr.M] holds. *)
Inductive value : Type :=
| VString (s : string)
| VStrings (l : list string)
| VInt (n : Z).

Module reader.

(** [reader.Message]: the fields the harvester reads. *)
Record Message : Type := {
  Ts : Z;
  Content : string;
  Bytes : Z;
  Fields : gmap string value;
  Offset : Z
}.

End reader.

(** The event handed to the publisher: the message's timestamp, content and
    fields ([message.ToEvent]). *)
Record beat_Event : Type := {
  Timestamp : Z;
  event_message : string;
  event_Fields : gmap string value
}.

Definition ToEvent (m : reader.Message) : beat_Event :=
  {| Timestamp := reader.Ts m;
     event_message := reader.Content m;
     event_Fields := reader.Fields m |}.

(** [mapstr.AddTags]: appends to the list under [tags]; a [tags] entry of
    another type is an error, which the harvester ignores. *)
Definition mapstr_AddTags (ms : gmap string value) (tags : list string) : gmap string value :=
  match ms !! "tags" with
  | None => <["tags" := VStrings tags]> ms
  | Some (VStrings old) => <["tags" := VStrings (old ++ tags)]> ms
  | Some _ => ms
  end.

Definition with_Fields (m : reader.Message) (fields : gmap string value) : reader.Message :=
  {| reader.Ts := reader.Ts m;
     reader.Content := reader.Content m;
     reader.Bytes := reader.Bytes m;
     reader.Fields := fields;
     reader.Offset := reader.Offset m |}.

Definition with_Content (m : reader.Message) (content : string) : reader.Message :=
  {| reader.Ts := reader.Ts m;
     reader.Content := content;
     reader.Bytes := reader.Bytes m;
     reader.Fields := reader.Fields m;
     reader.Offset := reader.Offset m |}.

(** The counters and gauges of [loginp.Metrics] the harvester touches.  A
    metric's value is kept as an integer, not reduced modulo its width. *)
Inductive metric : Type :=
| FilesOpened | FilesClosed | FilesActive
| HarvesterStarted | HarvesterClosed | HarvesterRunning | HarvesterOpenFiles
| MessagesRead | MessagesTruncated | BytesProcessed | EventsProcessed
| ProcessingErrors.

#[global] Instance metric_eq_dec : EqDecision metric.
Proof. solve_decision. Defined.

Definition Metrics : Type := metric -> Z.

Definition Metric_Add (c : metric) (n : Z) (m : Metrics) : Metrics :=
  fun c' => if decide (c' = c) then m c' + n else m c'.

Definition Metric_Inc (c : metric) (m : Metrics) : Metrics := Metric_Add c 1 m.
Definition Metric_Dec (c : metric) (m : Metrics) : Metrics := Metric_Add c (-1) m.

(** Conversions between Go's integer types. *)
Definition to_int64 (x : Z) : Z := wrap64 x.
Definition to_uint64 (x : Z) : Z := x mod 2 ^ 64.

(** ** The read loop's environment

    One entry per turn of the loop: the context was cancelled when the loop
    head tested it, or [r.Next()] returned an error, or it returned a
    message, and then [publish] is what [p.Publish] answers if it is
    called. *)
Inductive step : Type :=
| Cancelled
| NextError (err : error)
| NextMessage (message : reader.Message) (publish : option error).

(** The harvester's state between two turns: the offset state, the metrics
    and the calls made to [p.Publish] so far, oldest first. *)
Record loop_state : Type := {
  ls_state : state;
  ls_metrics : Metrics;
  ls_published : list (beat_Event * state)
}.

Inductive iteration_result : Type :=
| Continue (ls : loop_state)
| Return (err : option error) (ls : loop_state).

(** How a run over a finite environment ends: the function returned, or the
    environment ran out with the loop still going. *)
Inductive outcome : Type :=
| Returned (err : option error)
| Pending.

Section Harvester.

(** Types declared elsewhere in the agent and only passed around here. *)
Variable stateChangeCloserConfig : Type.
Variable Encoding : Type.
Variable parser_Config : Type.
Variable Canceler : Type.

Record closerConfig : Type := {
  OnStateChange : stateChangeCloserConfig;
  Reader : readerCloserConfig
}.

(** The input.  [encodingFactory] reads from the file to detect the
    encoding, so it also returns the file it leaves behind. *)
Record filestream : Type := {
  inp_readerConfig : readerConfig;
  inp_encodingFactory : File -> File * (error + Encoding);
  inp_closerConfig : closerConfig;
  inp_parsers : parser_Config;
  inp_takeOver : takeOverConfig
}.

(** ** Opening *)

Definition checkFileBeforeOpening (fi : FileInfo) : option error :=
  if negb (Mode_IsRegular fi)
  then Some (ErrOther ("tried to open non regular file: " +:+ Name fi))
  else None.

Definition initFileOffset (file : File) (offset : Z) : File * option error :=
  if 0 <? offset then File_Seek file offset
  else File_Seek file 0.

(** [openFile] returns the file, the encoding, the truncation flag and the
    error.  A file that was opened and not handed to the caller is closed
    (the deferred [cleanup.IfNot]); it is dropped from the result as the
    source returns [nil] for it. *)
Definition openFile (inp : filestream) (w : FileSystem) (path : string) (offset : Z)
  : option File * option Encoding * bool * option error :=
  match os_Stat w path with
  | inl err => (None, None, false, Some (Wrap ("failed to stat source file " +:+ path) err))
  | inr fi =>
    if Mode_NamedPipe fi
    then (None, None, false,
          Some (ErrOther ("failed to open file " +:+ Name fi +:+ ", named pipes are not supported")))
    else
      match file_ReadOpen w path with
      | inl err => (None, None, false, Some (Wrap ("failed opening " +:+ path) err))
      | inr d =>
        let f := {| fd := d; position := 0; closed := false |} in
        match Stat_result (fd f) with
        | inl err => (None, None, false, Some (Wrap ("failed to stat source file " +:+ path) err))
        | inr fi =>
          match checkFileBeforeOpening fi with
          | Some err => (None, None, false, Some err)
          | None =>
            let truncated := Size fi <? offset in
            let offset := if truncated then 0 else offset in
            match initFileOffset f offset with
            | (_, Some err) => (None, None, truncated, Some err)
            | (f, None) =>
              match inp_encodingFactory inp f with
              | (_, inl err) =>
                if errors_Is err transform_ErrShortSrc
                then (None, None, truncated,
                      Some (ErrOther "initialising encoding failed due to file being too short"))
                else (None, None, truncated, Some (Wrap "initialising encoding failed" err))
              | (f, inr encoding) => (Some f, Some encoding, truncated, None)
              end
            end
          end
        end
      end
  end.

(** ** The reader pipeline

    Each stage wraps the previous one; the outermost constructor is the last
    stage. *)

Record readfile_Config : Type := {
  Codec : Encoding;
  cfg_BufferSize : Z;
  Terminator : readfile_LineTerminator;
  cfg_MaxBytes : Z
}.

Inductive reader_Reader : Type :=
| newFileReader (c : Canceler) (f : File) (rc : readerConfig) (cc : closerConfig)
| debug_AppendReaders (r : reader_Reader)
| readfile_NewEncodeReader (r : reader_Reader) (cfg : readfile_Config)
| readfile_NewStripNewline (r : reader_Reader) (t : readfile_LineTerminator)
| readfile_NewFilemeta (r : reader_Reader) (path : string) (fi : ExtendedFileInfo)
                       (fingerprint : string) (offset : Z)
| parsers_Create (r : reader_Reader) (p : parser_Config)
| readfile_NewLimitReader (r : reader_Reader) (maxBytes : Z).

(** The constructors that can fail, and whether they do. *)
Record Constructors : Type := {
  newFileReader_error : option error;
  AppendReaders_error : option error;
  NewEncodeReader_error : option error
}.

Definition open (inp : filestream) (w : FileSystem) (k : Constructors)
    (canceler : Canceler) (fs : fileSource) (offset : Z)
  : option reader_Reader * bool * option error :=
  match openFile inp w (newPath fs) offset with
  | (Some f, Some encoding, truncated, None) =>
    let offset := if truncated then 0 else offset in
    let closerCfg :=
      if archived fs && negb (OnEOF (Reader (inp_closerConfig inp)))
      then {| Reader := {| OnEOF := true;
                           AfterInterval := AfterInterval (Reader (inp_closerConfig inp)) |};
              OnStateChange := OnStateChange (inp_closerConfig inp) |}
      else inp_closerConfig inp in
    match newFileReader_error k with
    | Some err => (None, truncated, Some err)
    | None =>
      let logReader := newFileReader canceler f (inp_readerConfig inp) closerCfg in
      match AppendReaders_error k with
      | Some err => (None, truncated, Some err)
      | None =>
        let dbgReader := debug_AppendReaders logReader in
        let encReaderMaxBytes := mul64 (MaxBytes (inp_readerConfig inp)) 4 in
        match NewEncodeReader_error k with
        | Some err => (None, truncated, Some err)
        | None =>
          let r := readfile_NewEncodeReader dbgReader
                     {| Codec := encoding;
                        cfg_BufferSize := BufferSize (inp_readerConfig inp);
                        Terminator := LineTerminator (inp_readerConfig inp);
                        cfg_MaxBytes := encReaderMaxBytes |} in
          let r := readfile_NewStripNewline r (LineTerminator (inp_readerConfig inp)) in
          let r := readfile_NewFilemeta r (newPath fs) (Info (desc fs))
                     (Fingerprint (desc fs)) offset in
          let r := parsers_Create r (inp_parsers inp) in
          let r := readfile_NewLimitReader r (MaxBytes (inp_readerConfig inp)) in
          (Some r, truncated, None)
        end
      end
    end
  | (_, _, truncated, err) => (None, truncated, err)
  end.

(** ** The read loop *)

(** [message.IsEmpty], a method of the reader package. *)
Variable IsEmpty : reader.Message -> bool.

Definition count_truncated (message : reader.Message) (metrics : Metrics) : Metrics :=
  match reader.Fields message !! "log.flags" with
  | Some (VStrings flags) =>
      if bool_decide ("truncated" ∈ flags) then Metric_Add MessagesTruncated 1 metrics
      else metrics
  | _ => metrics
  end.

(** One turn of the [for] loop of [readFromSource].  The update of the
    processing-time histogram, which reads the clock, is left out. *)
Definition iteration (inp : filestream) (st : step) (ls : loop_state) : iteration_result :=
  match st with
  | Cancelled => Return None ls
  | NextError err =>
      let metrics :=
        if errors_Is err ErrFileTruncate then ls_metrics ls
        else if errors_Is err ErrClosed then ls_metrics ls
        else if errors_Is err io_EOF then ls_metrics ls
        else Metric_Inc ProcessingErrors (ls_metrics ls) in
      Return None {| ls_state := ls_state ls;
                     ls_metrics := metrics;
                     ls_published := ls_published ls |}
  | NextMessage message publish =>
      let s := {| Offset := add64 (Offset (ls_state ls))
                              (add64 (to_int64 (reader.Bytes message))
                                     (to_int64 (reader.Offset message))) |} in
      let metrics := count_truncated message (ls_metrics ls) in
      let metrics := Metric_Inc MessagesRead metrics in
      if IsEmpty message || isDroppedLine (inp_readerConfig inp) (reader.Content message)
      then Continue {| ls_state := s; ls_metrics := metrics;
                       ls_published := ls_published ls |}
      else
        let metrics := Metric_Add BytesProcessed (to_uint64 (reader.Bytes message)) metrics in
        let message :=
          if Enabled (inp_takeOver inp)
          then with_Fields message (mapstr_AddTags (reader.Fields message) ["take_over"])
          else message in
        let published := ls_published ls ++ [(ToEvent message, s)] in
        match publish with
        | Some err =>
            Return (Some err) {| ls_state := s;
                                 ls_metrics := Metric_Inc ProcessingErrors metrics;
                                 ls_published := published |}
        | None =>
            Continue {| ls_state := s;
                        ls_metrics := Metric_Inc EventsProcessed metrics;
                        ls_published := published |}
        end
  end.

Fixpoint for_loop (inp : filestream) (script : list step) (ls : loop_state)
  : outcome * loop_state :=
  match script with
  | [] => (Pending, ls)
  | st :: rest =>
      match iteration inp st ls with
      | Continue ls' => for_loop inp rest ls'
      | Return err ls' => (Returned err, ls')
      end
  end.

(** The deferred metric updates, run when the function returns. *)
Definition readFromSource_deferred (metrics : Metrics) : Metrics :=
  Metric_Inc FilesClosed (Metric_Dec HarvesterOpenFiles (Metric_Inc HarvesterClosed metrics)).

Definition readFromSource (inp : filestream) (script : list step) (s : state)
    (metrics : Metrics) : outcome * loop_state :=
  let metrics := Metric_Inc FilesOpened metrics in
  let metrics := Metric_Inc HarvesterOpenFiles metrics in
  let metrics := Metric_Inc HarvesterStarted metrics in
  match for_loop inp script {| ls_state := s; ls_metrics := metrics; ls_published := [] |} with
  | (Returned err, ls) =>
      (Returned err, {| ls_state := ls_state ls;
                        ls_metrics := readFromSource_deferred (ls_metrics ls);
                        ls_published := ls_published ls |})
  | (Pending, ls) => (Pending, ls)
  end.

(** ** Run *)

(** The first half of [Run]: the initial state, the open, and the reset of
    the state's offset when the open reports a truncation. *)
Definition Run_open (inp : filestream) (w : FileSystem) (k : Constructors)
    (canceler : Canceler) (fs : fileSource) (cursor : loginp_Cursor)
  : error + (option reader_Reader * state) :=
  let state := initState cursor fs in
  match open inp w k canceler fs (Offset state) with
  | (_, _, Some err) => inl err
  | (r, truncated, None) =>
      let state := if truncated then {| Offset := 0 |} else state in
      inr (r, state)
  end.

Definition Run_deferred (metrics : Metrics) : Metrics :=
  Metric_Dec FilesActive (Metric_Dec HarvesterRunning metrics).

(** [Run]; [script] is what the reader built by [open] and the publisher
    answer during the read loop. *)
Definition Run (inp : filestream) (w : FileSystem) (k : Constructors)
    (canceler : Canceler) (src : loginp_Source) (cursor : loginp_Cursor)
    (script : list step) (metrics : Metrics) : outcome * loop_state :=
  match src with
  | NotFileSource _ =>
      (Returned (Some (ErrOther "not file source")),
       {| ls_state := {| Offset := 0 |}; ls_metrics := metrics; ls_published := [] |})
  | IsFileSource fs =>
      match Run_open inp w k canceler fs cursor with
      | inl err =>
          (Returned (Some err),
           {| ls_state := initState cursor fs; ls_metrics := metrics; ls_published := [] |})
      | inr (_, state) =>
          let metrics := Metric_Inc FilesActive metrics in
          let metrics := Metric_Inc HarvesterRunning metrics in
          match readFromSource inp script state metrics with
          | (Returned err, ls) =>
              (Returned err, {| ls_state := ls_state ls;
                                ls_metrics := Run_deferred (ls_metrics ls);
                                ls_published := ls_published ls |})
          | (Pending, ls) => (Pending, ls)
          end
      end
  end.

End Harvester.

Arguments OnStateChange {_} _.
Arguments Reader {_} _.
Arguments inp_readerConfig {_ _ _} _.
Arguments inp_encodingFactory {_ _ _} _.
Arguments inp_closerConfig {_ _ _} _.
Arguments inp_parsers {_ _ _} _.
Arguments inp_takeOver {_ _ _} _.
Arguments Codec {_} _.
Arguments cfg_BufferSize {_} _.
Arguments Terminator {_} _.
Arguments cfg_MaxBytes {_} _.
Arguments newFileReader {_ _ _ _} c f rc cc.
Arguments debug_AppendReaders {_ _ _ _} r.
Arguments readfile_NewEncodeReader {_ _ _ _} r cfg.
Arguments readfile_NewStripNewline {_ _ _ _} r t.
Arguments readfile_NewFilemeta {_ _ _ _} r path fi fingerprint offset.
Arguments parsers_Create {_ _ _ _} r p.
Arguments readfile_NewLimitReader {_ _ _ _} r maxBytes.
Arguments initFileOffset file offset : simpl never.
Arguments openFile {_ _ _} inp w path offset.
Arguments open {_ _ _ _} inp w k canceler fs offset.
Arguments iteration {_ _ _} IsEmpty inp st ls.
Arguments for_loop {_ _ _} IsEmpty inp script ls.
Arguments readFromSource {_ _ _} IsEmpty inp script s metrics.
Arguments Run_open {_ _ _ _} inp w k canceler fs cursor.
Arguments Run {_ _ _ _} IsEmpty inp w k canceler src cursor script metrics.

(** ** What the pipeline emits *)

Fixpoint take_bytes (n : nat) (s : string) : string :=
  match n, s with
  | O, _ => EmptyString
  | S _, EmptyString => EmptyString
  | S n', String a s' => String a (take_bytes n' s')
  end.

(** Modelled from the spec: [readfile.LimitReader] lives in the reader
    library, which is not part of the sources at hand.  The specification
    has the final stage clamp a record's content to the configured maximum:
    content longer than [maxBytes] is cut down to its first [maxBytes]
    bytes, anything else passes unchanged, errors included. *)
Definition LimitReader_Next (maxBytes : Z) (inner : reader.Message * option error)
  : reader.Message * option error :=
  let (message, err) := inner in
  if maxBytes <? Z.of_nat (String.length (reader.Content message))
  then (with_Content message (take_bytes (Z.to_nat maxBytes) (reader.Content message)), err)
  else (message, err).

Section Pipeline.

Context {stateChangeCloserConfig Encoding parser_Config Canceler : Type}.

Local Abbreviation Reader_t :=
  (reader_Reader stateChangeCloserConfig Encoding parser_Config Canceler).

(** What a stage other than the limit stage returns from [Next]: the
    decoding, framing and parsing stages belong to the reader library, and
    nothing is assumed of them. *)
Variable stage_Next : Reader_t -> reader.Message * option error.

Fixpoint Reader_Next (r : Reader_t) : reader.Message * option error :=
  match r with
  | readfile_NewLimitReader r' maxBytes => LimitReader_Next maxBytes (Reader_Next r')
  | _ => stage_Next r
  end.

(** The byte ceiling handed to the decode stage of a pipeline. *)
Fixpoint encode_ceiling (r : Reader_t) : option Z :=
  match r with
  | newFileReader _ _ _ _ => None
  | debug_AppendReaders r' => encode_ceiling r'
  | readfile_NewEncodeReader _ cfg => Some (cfg_MaxBytes cfg)
  | readfile_NewStripNewline r' _ => encode_ceiling r'
  | readfile_NewFilemeta r' _ _ _ _ => encode_ceiling r'
  | parsers_Create r' _ => encode_ceiling r'
  | readfile_NewLimitReader r' _ => encode_ceiling r'
  end.

(** The bound of the last stage, when the last stage is a limit stage. *)
Definition final_limit (r : Reader_t) : option Z :=
  match r with
  | readfile_NewLimitReader _ maxBytes => Some maxBytes
  | _ => None
  end.

(** The closer configuration and the base offset a pipeline was built
    with. *)
Fixpoint pipeline_closer (r : Reader_t) : option (closerConfig stateChangeCloserConfig) :=
  match r with
  | newFileReader _ _ _ cc => Some cc
  | debug_AppendReaders r' => pipeline_closer r'
  | readfile_NewEncodeReader r' _ => pipeline_closer r'
  | readfile_NewStripNewline r' _ => pipeline_closer r'
  | readfile_NewFilemeta r' _ _ _ _ => pipeline_closer r'
  | parsers_Create r' _ => pipeline_closer r'
  | readfile_NewLimitReader r' _ => pipeline_closer r'
  end.

Fixpoint pipeline_file (r : Reader_t) : option File :=
  match r with
  | newFileReader _ f _ _ => Some f
  | debug_AppendReaders r' => pipeline_file r'
  | readfile_NewEncodeReader r' _ => pipeline_file r'
  | readfile_NewStripNewline r' _ => pipeline_file r'
  | readfile_NewFilemeta r' _ _ _ _ => pipeline_file r'
  | parsers_Create r' _ => pipeline_file r'
  | readfile_NewLimitReader r' _ => pipeline_file r'
  end.

Fixpoint pipeline_base_offset (r : Reader_t) : option Z :=
  match r with
  | newFileReader _ _ _ _ => None
  | debug_AppendReaders r' => pipeline_base_offset r'
  | readfile_NewEncodeReader r' _ => pipeline_base_offset r'
  | readfile_NewStripNewline r' _ => pipeline_base_offset r'
  | readfile_NewFilemeta _ _ _ _ offset => Some offset
  | parsers_Create r' _ => pipeline_base_offset r'
  | readfile_NewLimitReader r' _ => pipeline_base_offset r'
  end.

End Pipeline.

(** ** File identifiers *)

Module identifier.

Inductive Operation : Type :=
| OpDone | OpCreate | OpWrite | OpDelete | OpRename.

#[global] Instance Operation_eq_dec : EqDecision Operation.
Proof. solve_decision. Defined.

Record FSEvent : Type := {
  NewPath : string;
  OldPath : string;
  Op : Operation;
  Descriptor : FileDescriptor
}.

Definition nativeName : string := "native".
Definition pathName : string := "path".
Definition fingerprintName : string := "fingerprint".
Definition DefaultIdentifierName : string := nativeName.
Definition identitySep : string := "::".

(** The strategies; the native one carries the suffix it was configured
    with. *)
Inductive fileIdentifier : Type :=
| inodeDeviceIdentifier (suffix : string)
| pathIdentifier
| fingerprintIdentifier.

Definition Name (i : fileIdentifier) : string :=
  match i with
  | inodeDeviceIdentifier _ => nativeName
  | pathIdentifier => pathName
  | fingerprintIdentifier => fingerprintName
  end.

Section GetSource.

(** [file.StateOS.String], the printed device and inode. *)
Variable StateOS_String : StateOS -> string.

(** Modelled from the spec: the identifiers ([newFileIdentifier] and the
    [GetSource] methods) are not part of the sources at hand, only their
    test is.  The specification and the test give the name of the source
    each strategy returns: the native one prints the device and inode of the
    descriptor, followed by [-suffix] when a suffix is configured; the path
    one uses the event's new path, and the old path on a delete; the
    fingerprint one uses the descriptor's fingerprint. *)
Definition GetSource_Name (i : fileIdentifier) (e : FSEvent) : string :=
  match i with
  | inodeDeviceIdentifier suffix =>
      let base := nativeName +:+ identitySep +:+ StateOS_String (GetOSState (Info (Descriptor e))) in
      if decide (suffix = "") then base else base +:+ "-" +:+ suffix
  | pathIdentifier =>
      let path := if decide (Op e = OpDelete) then OldPath e else NewPath e in
      pathName +:+ identitySep +:+ path
  | fingerprintIdentifier =>
      fingerprintName +:+ identitySep +:+ Fingerprint (Descriptor e)
  end.

End GetSource.

End identifier.

(** ** Concrete inputs

    A regular file [/var/log/app.log] of a given size, an input with the
    default encoding and no parsers, and the sources and messages the
    examples below run on. *)

Definition example_info (size : Z) : FileInfo :=
  {| Mode_NamedPipe := false; Mode_IsRegular := true; Size := size; Name := "app.log" |}.

Definition example_world (size : Z) : FileSystem :=
  {| os_Stat := fun _ => inr (example_info size);
     file_ReadOpen := fun _ => inr {| Stat_result := inr (example_info size);
                                      Seek_error := None |} |}.

Definition example_closer (onEOF : bool) : closerConfig unit :=
  {| OnStateChange := tt;
     Reader := {| AfterInterval := 300; OnEOF := onEOF |} |}.

Definition example_reader (inc exc : list Matcher) (maxBytes : Z) : readerConfig :=
  {| BufferSize := 16384;
     ExcludeLines := exc;
     IncludeLines := inc;
     LineTerminator := AutoLineTerminator;
     MaxBytes := maxBytes |}.

Definition example_input (rc : readerConfig) (onEOF : bool) : filestream unit unit unit :=
  {| inp_readerConfig := rc;
     inp_encodingFactory := fun f => (f, inr tt);
     inp_closerConfig := example_closer onEOF;
     inp_parsers := tt;
     inp_takeOver := {| Enabled := false |} |}.

Definition default_input : filestream unit unit unit :=
  example_input (example_reader [] [] 10485760) false.

Definition no_failure : Constructors :=
  {| newFileReader_error := None;
     AppendReaders_error := None;
     NewEncodeReader_error := None |}.

Definition example_descriptor (size : Z) : FileDescriptor :=
  {| Info := {| FileInfo_ := example_info size;
                GetOSState := {| Inode := 1234; Device := 66306 |} |};
     Fingerprint := "fingerprintvalue" |}.

Definition example_source (size : Z) (is_archived : bool) : fileSource :=
  {| desc := example_descriptor size;
     newPath := "/var/log/app.log";
     oldPath := "";
     truncated := false;
     archived := is_archived;
     fileID := "native::1234-66306" |}.

Definition stored (offset : Z) : loginp_Cursor :=
  StoredCursor (PackedState {| Offset := offset |}).

(** A line of [content] read from [bytes] bytes of the file. *)
Definition line (content : string) (bytes : Z) : reader.Message :=
  {| reader.Ts := 0;
     reader.Content := content;
     reader.Bytes := bytes;
     reader.Fields := ∅;
     reader.Offset := 0 |}.

(** A message is empty when no bytes were read for it. *)
Definition no_bytes (m : reader.Message) : bool := reader.Bytes m =? 0.

Definition zero_metrics : Metrics := fun _ => 0.

(** The messages of the turns of a script, in order; the bytes the stream
    advanced for a message (those read for it and those skipped before it);
    and the offset state after a message, as the loop computes it. *)
Definition messages_of (script : list step) : list reader.Message :=
  omap (fun st => match st with NextMessage m _ => Some m | _ => None end) script.

Definition consumed (m : reader.Message) : Z :=
  reader.Bytes m + reader.Offset m.

Definition advance (s : state) (m : reader.Message) : state :=
  {| Offset := add64 (Offset s)
                 (add64 (to_int64 (reader.Bytes m)) (to_int64 (reader.Offset m))) |}.

(** The errors on which the loop logs a clean end of the file. *)
Definition is_terminal_signal (err : error) : bool :=
  errors_Is err ErrFileTruncate || errors_Is err ErrClosed || errors_Is err io_EOF.
(** The bytes a list of messages consumed in all. *)
Definition total_consumed (ms : list reader.Message) : Z :=
  foldr (fun m acc => consumed m + acc) 0 ms.

(** The first state of the loop in [readFromSource]. *)
Definition loop_start (s : state) (metrics : Metrics) : loop_state :=
  {| ls_state := s;
     ls_metrics := Metric_Inc HarvesterStarted
                     (Metric_Inc HarvesterOpenFiles (Metric_Inc FilesOpened metrics));
     ls_published := [] |}.

(** Whether the loop drops a message after reading it. *)
Definition dropped {SC Enc PC : Type} (IsEmpty : reader.Message -> bool)
    (inp : filestream SC Enc PC) (message : reader.Message) : bool :=
  IsEmpty message || isDroppedLine (inp_readerConfig inp) (reader.Content message).

(** The event published for a message: tagged in take-over mode. *)
Definition published_event {SC Enc PC : Type} (inp : filestream SC Enc PC)
    (message : reader.Message) : beat_Event :=
  ToEvent (if Enabled (inp_takeOver inp)
           then with_Fields message (mapstr_AddTags (reader.Fields message) ["take_over"])
           else message).

(** The offsets handed to the publisher, oldest first. *)
Definition published_offsets (ls : loop_state) : list Z :=
  map (fun call => Offset (snd call)) (ls_published ls).

(** Scenario A of the specification: two lines, read from the start. *)
Definition scenario_A : list step :=
  [NextMessage (line "line1" 6) None; NextMessage (line "line2" 6) None; NextError io_EOF].

(** Scenario B of the specification: the file was emptied and [new1] was
    appended; the store still holds offset 12. *)
Definition scenario_B : list step :=
  [NextMessage (line "new1" 5) None; NextError io_EOF].

(** A read failure followed by a good line. *)
Definition failure_then_line : list step :=
  [NextError (ErrOther "invalid encoding"); NextMessage (line "line2" 6) None].

(** A filtered-out line followed by a published one. *)
Definition dropped_then_line : list step :=
  [NextMessage (line "DEBUG x" 8) None; NextMessage (line "ERROR y" 8) None].

(** A good line, then a line the publisher refuses, then more input. *)
Definition publish_refused : list step :=
  [NextMessage (line "line1" 6) None;
   NextMessage (line "line2" 6) (Some (ErrOther "publisher closed"));
   NextMessage (line "line3" 6) None].

(** A printed device and inode, and the events of the identifier test. *)
Definition print_StateOS (os : StateOS) : string :=
  pretty (Inode os) +:+ "-" +:+ pretty (Device os).

Definition rename_event : identifier.FSEvent :=
  {| identifier.NewPath := "/new/path/to/file";
     identifier.OldPath := "/old/path/to/file";
     identifier.Op := identifier.OpRename;
     identifier.Descriptor := example_descriptor 0 |}.

Definition delete_event : identifier.FSEvent :=
  {| identifier.NewPath := "";
     identifier.OldPath := "/old/path/to/file";
     identifier.Op := identifier.OpDelete;
     identifier.Descriptor := example_descriptor 0 |}.

Definition grown_event : identifier.FSEvent :=
  {| identifier.NewPath := "/old/path/to/file";
     identifier.OldPath := "";
     identifier.Op := identifier.OpWrite;
     identifier.Descriptor := example_descriptor 4096 |}.

(** An input that keeps the lines containing [ERROR]. *)
Definition errors_only_input : filestream unit unit unit :=
  example_input (example_reader [contains "ERROR"] [] 10485760) false.

(** ** Test *)

(** What [Test] does: it returns, or it calls [Close] on a [nil] reader. *)
Inductive test_result : Type :=
| TestReturned (err : option error)
| TestPanics.

(** [Test] opens the source at offset 0 and closes the reader again;
    [Reader_Close] is the [Close] method of the pipeline. *)
Definition Test {SC Enc PC Can : Type} (inp : filestream SC Enc PC) (w : FileSystem)
    (k : Constructors) (canceler : Can)
    (Reader_Close : reader_Reader SC Enc PC Can -> option error)
    (src : loginp_Source) : test_result :=
  match src with
  | NotFileSource _ => TestReturned (Some (ErrOther "not file source"))
  | IsFileSource fs =>
      match open inp w k canceler fs 0 with
      | (_, _, Some err) => TestReturned (Some err)
      | (Some reader, _, None) => TestReturned (Reader_Close reader)
      | (None, _, None) => TestPanics
      end
  end.

(** ** Counting over a run *)

(** Whether a message carries the [truncated] flag under [log.flags]. *)
Definition has_truncated_flag (m : reader.Message) : bool :=
  match reader.Fields m !! "log.flags" with
  | Some (VStrings flags) => bool_decide ("truncated" ∈ flags)
  | _ => false
  end.

(** The messages of a list the loop publishes. *)
Definition kept {SC Enc PC : Type} (IsEmpty : reader.Message -> bool)
    (inp : filestream SC Enc PC) (ms : list reader.Message) : list reader.Message :=
  List.filter (fun m => negb (dropped IsEmpty inp m)) ms.


(** The metrics the loop does not touch between its first and its last
    statement. *)
Definition lifecycle_metric (c : metric) : bool :=
  match c with
  | FilesOpened | FilesClosed | FilesActive
  | HarvesterStarted | HarvesterClosed | HarvesterRunning | HarvesterOpenFiles => true
  | _ => false
  end.

(** ** The CloudWatch input: configuration and event creation *)

Module awscloudwatch.

Definition beginning : string := "beginning".
Definition end_ : string := "end".
Definition lastSync : string := "lastSync".

(** Durations are nanoseconds, as [time.Duration]. *)
Definition time_Millisecond : Z := 1000000.
Definition time_Second : Z := 1000 * time_Millisecond.

(** The configuration; of the embedded forwarder configuration only the
    type is kept, and the AWS credentials block is left out: [Validate] and
    [defaultConfig] read neither. *)
Record config : Type := {
  ForwarderConfig_Type : string;
  LogGroupARN : string;
  LogGroupName : string;
  LogGroupNamePrefix : string;
  IncludeLinkedAccountsForPrefixMode : bool;
  RegionName : string;
  LogStreams : list (option string);
  LogStreamPrefix : string;
  StartPosition : string;
  ScanFrequency : Z;
  APITimeout : Z;
  APISleep : Z;
  Latency : Z;
  NumberOfWorkers : Z
}.

Definition defaultConfig : config :=
  {| ForwarderConfig_Type := "aws-cloudwatch";
     LogGroupARN := "";
     LogGroupName := "";
     LogGroupNamePrefix := "";
     IncludeLinkedAccountsForPrefixMode := false;
     RegionName := "";
     LogStreams := [];
     LogStreamPrefix := "";
     StartPosition := beginning;
     ScanFrequency := 60 * time_Second;
     APITimeout := 120 * time_Second;
     APISleep := 200 * time_Millisecond;
     Latency := 0;
     NumberOfWorkers := 1 |}.

Definition neq (a b : string) : bool := negb (String.eqb a b).

Definition Validate (c : config) : option error :=
  if neq (StartPosition c) beginning && neq (StartPosition c) end_
     && neq (StartPosition c) lastSync
  then Some (ErrOther
    "start_position config parameter can only be one of beginning, end or lastSync")
  else if String.eqb (LogGroupARN c) "" && String.eqb (LogGroupName c) ""
          && String.eqb (LogGroupNamePrefix c) ""
  then Some (ErrOther
    "log_group_arn, log_group_name and log_group_name_prefix config parameter cannot all be empty")
  else if neq (LogGroupName c) "" && neq (LogGroupNamePrefix c) ""
  then Some (ErrOther
    "log_group_name and log_group_name_prefix cannot be given at the same time")
  else if (neq (LogGroupName c) "" || neq (LogGroupNamePrefix c) "")
          && String.eqb (RegionName c) ""
  then Some (ErrOther
    "region_name is required when log_group_name or log_group_name_prefix config parameter is given")
  else None.

(** [types.FilteredLogEvent]: every field is a pointer, [None] is [nil]. *)
Record FilteredLogEvent : Type := {
  EventId : option string;
  IngestionTime : option Z;
  LogStreamName : option string;
  Message : option string;
  Timestamp : option Z
}.

(** The values of an event's fields: strings, times (milliseconds since the
    epoch) and nested maps, written as the literal lists of their entries. *)
#[warnings="-register-all"]
Inductive field : Type :=
| FString (s : string)
| FTime (ms : Z)
| FMap (entries : list (string * field)).

Record Event : Type := {
  Event_Timestamp : Z;
  Event_Fields : list (string * field);
  Event_Meta : list (string * string)
}.

(** [event.SetID]: the identifier goes under [_id] in the event's meta
    data. *)
Definition SetID (e : Event) (id : string) : Event :=
  {| Event_Timestamp := Event_Timestamp e;
     Event_Fields := Event_Fields e;
     Event_Meta := ("_id", id) :: List.filter (fun kv => neq (fst kv) "_id") (Event_Meta e) |}.

(** [createEvent]; [now] is what [time.Now] returns, and [None] is the
    panic of dereferencing a [nil] field. *)
Definition createEvent (now : Z) (logEvent : FilteredLogEvent)
    (logGroupId regionName : string) : option Event :=
  match Timestamp logEvent, Message logEvent, LogStreamName logEvent,
        EventId logEvent, IngestionTime logEvent with
  | Some timestamp, Some message, Some logStreamName, Some eventId, Some ingestionTime =>
      let event :=
        {| Event_Timestamp := timestamp;
           Event_Fields :=
             [("message", FString message);
              ("log", FMap [("file", FMap [("path",
                               FString (logGroupId +:+ "/" +:+ logStreamName))])]);
              ("event", FMap [("id", FString eventId); ("ingested", FTime now)]);
              ("aws.cloudwatch", FMap [("log_group", FString logGroupId);
                                       ("log_stream", FString logStreamName);
                                       ("ingestion_time", FTime ingestionTime)]);
              ("cloud", FMap [("provider", FString "aws");
                              ("region", FString regionName)])];
           Event_Meta := [] |} in
      Some (SetID event eventId)
  | _, _, _, _, _ => None
  end.

(** The processor's view of the world: the counter of created events, the
    events handed to the publisher (oldest first) and how often the clock
    was read. *)
Record processor_state : Type := {
  cloudwatchEventsCreatedTotal : Z;
  published : list Event;
  clock_readings : nat
}.

(** [processLogEvents]: one event per log event, counted and published;
    [now n] is what the clock shows at its [n]-th reading.  The second
    component tells whether the loop ran to its end ([false]: a panic
    stopped it). *)
Fixpoint processLogEvents (now : nat -> Z) (logEvents : list FilteredLogEvent)
    (logGroupId regionName : string) (p : processor_state) : processor_state * bool :=
  match logEvents with
  | [] => (p, true)
  | logEvent :: rest =>
      match createEvent (now (clock_readings p)) logEvent logGroupId regionName with
      | None => (p, false)
      | Some event =>
          processLogEvents now rest logGroupId regionName
            {| cloudwatchEventsCreatedTotal := cloudwatchEventsCreatedTotal p + 1;
               published := published p ++ [event];
               clock_readings := S (clock_readings p) |}
      end
  end.

(** Whether no field of a log event is [nil]. *)
Definition complete (e : FilteredLogEvent) : bool :=
  match Timestamp e, Message e, LogStreamName e, EventId e, IngestionTime e with
  | Some _, Some _, Some _, Some _, Some _ => true
  | _, _, _, _, _ => false
  end.

Definition Event_ID (e : Event) : option string :=
  snd <$> List.find (fun kv => String.eqb (fst kv) "_id") (Event_Meta e).

(** The field under a path of keys. *)
Fixpoint lookup_path (path : list string) (entries : list (string * field)) : option field :=
  match path with
  | [] => None
  | key :: path' =>
      match List.find (fun kv => String.eqb (fst kv) key) entries with
      | None => None
      | Some (_, v) =>
          match path', v with
          | [], _ => Some v
          | _ :: _, FMap entries' => lookup_path path' entries'
          | _ :: _, _ => None
          end
      end
  end.

Definition example_log_event (id stream message : string) : FilteredLogEvent :=
  {| EventId := Some id;
     IngestionTime := Some 1700000001000;
     LogStreamName := Some stream;
     Message := Some message;
     Timestamp := Some 1700000000000 |}.

Definition example_processor : processor_state :=
  {| cloudwatchEventsCreatedTotal := 0; published := []; clock_readings := 0 |}.

End awscloudwatch.

(** A CloudWatch configuration with the default settings and the given log
    group and region; a log event whose message is nil; a clock. *)
Definition cloudwatch_config (arn name prefix region : string) : awscloudwatch.config :=
  {| awscloudwatch.ForwarderConfig_Type := "aws-cloudwatch";
     awscloudwatch.LogGroupARN := arn;
     awscloudwatch.LogGroupName := name;
     awscloudwatch.LogGroupNamePrefix := prefix;
     awscloudwatch.IncludeLinkedAccountsForPrefixMode := false;
     awscloudwatch.RegionName := region;
     awscloudwatch.LogStreams := [];
     awscloudwatch.LogStreamPrefix := "";
     awscloudwatch.StartPosition := awscloudwatch.beginning;
     awscloudwatch.ScanFrequency := 60 * awscloudwatch.time_Second;
     awscloudwatch.APITimeout := 120 * awscloudwatch.time_Second;
     awscloudwatch.APISleep := 200 * awscloudwatch.time_Millisecond;
     awscloudwatch.Latency := 0;
     awscloudwatch.NumberOfWorkers := 1 |}.

Definition nil_message_event : awscloudwatch.FilteredLogEvent :=
  {| awscloudwatch.EventId := Some "37";
     awscloudwatch.IngestionTime := Some 1700000001000;
     awscloudwatch.LogStreamName := Some "stream-a";
     awscloudwatch.Message := None;
     awscloudwatch.Timestamp := Some 1700000000000 |}.

Definition example_clock (n : nat) : Z := 1700000002000 + Z.of_nat n.

(** A source flagged truncated by the prospector, and a reader that closes
    without error. *)
Definition truncated_source (size : Z) : fileSource :=
  {| desc := example_descriptor size;
     newPath := "/var/log/app.log";
     oldPath := "";
     truncated := true;
     archived := false;
     fileID := "native::1234-66306" |}.

Definition close_ok {SC Enc PC Can : Type} (r : reader_Reader SC Enc PC Can)
  : option error := None.

(** A file system in which the path is a named pipe. *)
Definition pipe_world : FileSystem :=
  {| os_Stat := fun _ => inr {| Mode_NamedPipe := true; Mode_IsRegular := false;
                                Size := 0; Name := "fifo" |};
     file_ReadOpen := fun _ => inl (ErrOther "open would block") |}.

(** A file system in which the path became a directory between the first
    look and the open. *)
Definition raced_world : FileSystem :=
  {| os_Stat := fun _ => inr (example_info 100);
     file_ReadOpen := fun _ =>
       inr {| Stat_result := inr {| Mode_NamedPipe := false; Mode_IsRegular := false;
                                    Size := 4096; Name := "app.log" |};
              Seek_error := None |} |}.

(** A file system in which the path does not exist. *)
Definition missing_world : FileSystem :=
  {| os_Stat := fun _ => inl (ErrOther "no such file or directory");
     file_ReadOpen := fun _ => inl (ErrOther "no such file or directory") |}.

(** An input whose encoding factory finds the file too short. *)
Definition short_source_input : filestream unit unit unit :=
  {| inp_readerConfig := example_reader [] [] 10485760;
     inp_encodingFactory := fun f => (f, inl (Wrap "utf-16" transform_ErrShortSrc));
     inp_closerConfig := example_closer false;
     inp_parsers := tt;
     inp_takeOver := {| Enabled := false |} |}.


(** Evaluates a metric after a chain of updates of named metrics. *)
Ltac metric_cases :=
  unfold readFromSource_deferred, Run_deferred, Metric_Inc, Metric_Dec, Metric_Add;
  repeat match goal with
         | |- context [decide (?a = ?b)] => destruct (decide (a = b)); try congruence
         end;
  try lia.

(** * Properties *)

(** ** The line filters *)

Lemma matchAny_true (ms : list Matcher) (text : string) :
  matchAny ms text = true <-> exists m, In m ms /\ m text = true.
Proof.
  induction ms as [|m ms IH]; simpl.
  - split; [discriminate | intros (m & [] & _)].
  - destruct (m text) eqn:E.
    + split; [intros _; exists m; auto | reflexivity].
    + rewrite IH. split.
      * intros (m' & Hin & Hm). exists m'. auto.
      * intros (m' & [<- | Hin] & Hm); [congruence | exists m'; auto].
Qed.

Lemma matchAny_false (ms : list Matcher) (text : string) :
  matchAny ms text = false <-> forall m, In m ms -> m text = false.
Proof.
  induction ms as [|m ms IH]; simpl.
  - split; [intros _ m [] | reflexivity].
  - destruct (m text) eqn:E.
    + split; [discriminate | intros H; rewrite <- E; apply H; auto].
    + rewrite IH. split.
      * intros H m' [<- | Hin]; auto.
      * intros H m' Hin. apply H. auto.
Qed.

(** C4.  A line is dropped exactly when include patterns are configured and
    none of them matches it, or some exclude pattern matches it; so a line
    matched by an include pattern and by an exclude pattern is dropped. *)
Theorem isDroppedLine_spec (rc : readerConfig) (line : string) :
  (isDroppedLine rc line = true <->
     (IncludeLines rc <> [] /\ (forall m, In m (IncludeLines rc) -> m line = false))
     \/ (exists m, In m (ExcludeLines rc) /\ m line = true))
  /\ ((exists m, In m (IncludeLines rc) /\ m line = true) ->
      (exists m, In m (ExcludeLines rc) /\ m line = true) ->
      isDroppedLine rc line = true).
Proof.
  assert (Hiff : isDroppedLine rc line = true <->
     (IncludeLines rc <> [] /\ (forall m, In m (IncludeLines rc) -> m line = false))
     \/ (exists m, In m (ExcludeLines rc) /\ m line = true)).
  { unfold isDroppedLine.
    destruct (IncludeLines rc) as [|i inc] eqn:Ei;
      destruct (ExcludeLines rc) as [|x exc] eqn:Ex.
    - simpl. split; [discriminate|].
      intros [[H _] | (m & [] & _)]. congruence.
    - change (0 <? Z.of_nat (length (@nil Matcher))) with false.
      cbn [andb].
      replace (0 <? Z.of_nat (length (x :: exc))) with true
        by (symmetry; apply Z.ltb_lt; simpl; lia).
      cbn [andb].
      destruct (matchAny (x :: exc) line) eqn:Em.
      + split; [|reflexivity]. intros _. right. now apply matchAny_true.
      + split; [discriminate|].
        intros [[H _] | H]; [congruence|].
        apply matchAny_true in H. congruence.
    - replace (0 <? Z.of_nat (length (i :: inc))) with true
        by (symmetry; apply Z.ltb_lt; simpl; lia).
      change (0 <? Z.of_nat (length (@nil Matcher))) with false.
      cbn [andb].
      destruct (matchAny (i :: inc) line) eqn:Em; cbn [negb].
      + split; [discriminate|].
        intros [[_ H] | (m & [] & _)].
        apply matchAny_false in H. congruence.
      + split; [|reflexivity]. intros _. left. split; [discriminate|].
        now apply matchAny_false.
    - replace (0 <? Z.of_nat (length (i :: inc))) with true
        by (symmetry; apply Z.ltb_lt; simpl; lia).
      replace (0 <? Z.of_nat (length (x :: exc))) with true
        by (symmetry; apply Z.ltb_lt; simpl; lia).
      cbn [andb].
      destruct (matchAny (i :: inc) line) eqn:Em; cbn [negb].
      + destruct (matchAny (x :: exc) line) eqn:Em'.
        * split; [|reflexivity]. intros _. right. now apply matchAny_true.
        * split; [discriminate|].
          intros [[_ H] | H].
          -- apply matchAny_false in H. congruence.
          -- apply matchAny_true in H. congruence.
      + split; [|reflexivity]. intros _. left. split; [discriminate|].
        now apply matchAny_false. }
  split; [exact Hiff|].
  intros _ Hex. apply Hiff. now right.
Qed.


Lemma isDroppedLine_spec_witness :
  isDroppedLine (example_reader [contains "ERROR"] [contains "DEBUG"] 10485760)
    "ERROR DEBUG" = true.
Proof.
  apply (isDroppedLine_spec
           (example_reader [contains "ERROR"] [contains "DEBUG"] 10485760) "ERROR DEBUG").
  - exists (contains "ERROR"). split; [left; reflexivity | vm_compute; reflexivity].
  - exists (contains "DEBUG"). split; [left; reflexivity | vm_compute; reflexivity].
Defined.

(** ** Machine arithmetic *)

Lemma wrap64_id (x : Z) : in_int64 x -> wrap64 x = x.
Proof.
  unfold in_int64, min_int64, max_int64, wrap64. intros H.
  rewrite Z.mod_small; lia.
Qed.

Lemma wrap64_range (x : Z) : in_int64 (wrap64 x).
Proof.
  unfold in_int64, min_int64, max_int64, wrap64.
  pose proof (Z.mod_pos_bound (x + 2 ^ 63) (2 ^ 64)). lia.
Qed.

(** ** The limit stage *)

Lemma take_bytes_length (n : nat) (s : string) :
  (String.length (take_bytes n s) <= n)%nat.
Proof.
  revert s. induction n as [|n IH]; intros [ | a s]; simpl; try lia.
  specialize (IH s). lia.
Qed.

Lemma LimitReader_Next_bound (maxBytes : Z) (inner : reader.Message * option error) :
  0 <= maxBytes ->
  Z.of_nat (String.length (reader.Content (fst (LimitReader_Next maxBytes inner)))) <= maxBytes.
Proof.
  intros Hm. unfold LimitReader_Next. destruct inner as [message err].
  destruct (maxBytes <? _) eqn:Hlt; cbn [fst with_Content reader.Content].
  - pose proof (take_bytes_length (Z.to_nat maxBytes) (reader.Content message)). lia.
  - apply Z.ltb_ge in Hlt. exact Hlt.
Qed.

(** ** Opening a file *)

Section OpenProperties.

Context {stateChangeCloserConfig Encoding parser_Config Canceler : Type}.

Local Abbreviation filestream_t :=
  (filestream stateChangeCloserConfig Encoding parser_Config).
Local Abbreviation Reader_t :=
  (reader_Reader stateChangeCloserConfig Encoding parser_Config Canceler).

(** A successful [openFile] went through every step: the path was opened,
    the descriptor's size decided the truncation flag, the file was
    positioned, and the encoding factory ran on the positioned file. *)
Lemma openFile_success (inp : filestream_t) (w : FileSystem) (path : string)
    (offset : Z) (f : File) (enc : Encoding) (tr : bool) :
  openFile inp w path offset = (Some f, Some enc, tr, None) ->
  exists d fi f0,
    file_ReadOpen w path = inr d /\
    Stat_result d = inr fi /\
    tr = (Size fi <? offset) /\
    initFileOffset {| fd := d; position := 0; closed := false |}
      (if tr then 0 else offset) = (f0, None) /\
    inp_encodingFactory inp f0 = (f, inr enc).
Proof.
  unfold openFile.
  destruct (os_Stat w path) as [e|fi0]; [discriminate|].
  destruct (Mode_NamedPipe fi0); [discriminate|].
  destruct (file_ReadOpen w path) as [e|d]; [discriminate|].
  cbn [fd].
  destruct (Stat_result d) as [e|fi] eqn:Hstat; [discriminate|].
  destruct (checkFileBeforeOpening fi); [discriminate|].
  destruct (initFileOffset _ _) as [f0 [e|]] eqn:Hseek; [discriminate|].
  destruct (inp_encodingFactory inp f0) as [f1 [e|enc1]] eqn:Henc.
  - destruct (errors_Is e transform_ErrShortSrc); discriminate.
  - intros H. injection H as <- <- <-.
    exists d, fi, f0. repeat split; auto.
Qed.

(** Where [initFileOffset] leaves a freshly opened file. *)
Lemma initFileOffset_position (d : Handle) (offset : Z) (f0 : File) :
  initFileOffset {| fd := d; position := 0; closed := false |} offset = (f0, None) ->
  position f0 = Z.max 0 offset.
Proof.
  unfold initFileOffset, File_Seek. cbn [fd position closed].
  destruct (0 <? offset) eqn:Hpos; destruct (Seek_error d); try discriminate;
    intros H; injection H as <-; cbn [position].
  - apply Z.ltb_lt in Hpos. lia.
  - apply Z.ltb_ge in Hpos. lia.
Qed.

(** The pipeline a successful [open] returns, stage by stage. *)
Lemma open_success (inp : filestream_t) (w : FileSystem) (k : Constructors)
    (canceler : Canceler) (fs : fileSource) (offset : Z) (rd : Reader_t) (tr : bool) :
  open inp w k canceler fs offset = (Some rd, tr, None) ->
  exists f enc,
    openFile inp w (newPath fs) offset = (Some f, Some enc, tr, None) /\
    rd = readfile_NewLimitReader
           (parsers_Create
              (readfile_NewFilemeta
                 (readfile_NewStripNewline
                    (readfile_NewEncodeReader
                       (debug_AppendReaders
                          (newFileReader canceler f (inp_readerConfig inp)
                             (if archived fs && negb (OnEOF (Reader (inp_closerConfig inp)))
                              then {| Reader :=
                                        {| OnEOF := true;
                                           AfterInterval :=
                                             AfterInterval (Reader (inp_closerConfig inp)) |};
                                      OnStateChange := OnStateChange (inp_closerConfig inp) |}
                              else inp_closerConfig inp)))
                       {| Codec := enc;
                          cfg_BufferSize := BufferSize (inp_readerConfig inp);
                          Terminator := LineTerminator (inp_readerConfig inp);
                          cfg_MaxBytes := mul64 (MaxBytes (inp_readerConfig inp)) 4 |})
                    (LineTerminator (inp_readerConfig inp)))
                 (newPath fs) (Info (desc fs)) (Fingerprint (desc fs))
                 (if tr then 0 else offset))
              (inp_parsers inp))
           (MaxBytes (inp_readerConfig inp)).
Proof.
  unfold open.
  destruct (openFile inp w (newPath fs) offset) as [[[ofile oenc] t] e] eqn:Hof.
  destruct ofile as [f|]; [|discriminate].
  destruct oenc as [enc|]; [|discriminate].
  destruct e as [e|]; [discriminate|].
  destruct (newFileReader_error k); [discriminate|].
  destruct (AppendReaders_error k); [discriminate|].
  destruct (NewEncodeReader_error k); [discriminate|].
  intros H. injection H as <- <-.
  exists f, enc. split; reflexivity.
Qed.

(** C1.  A successful open with the resumed offset [O] of the cursor: when
    the size of the opened file is below [O], the open reports a truncation,
    the harvester's state offset becomes 0, and the file is read from
    position 0 with base offset 0; when the size is at least [O], no
    truncation is reported, the state offset stays [O], the pipeline's base
    offset is [O] and the file is positioned at [O] (a negative [O], which is
    no position in a file, leaves it at 0). *)
Theorem open_truncation (inp : filestream_t) (w : FileSystem) (k : Constructors)
    (canceler : Canceler) (fs : fileSource) (cursor : loginp_Cursor)
    (rd : Reader_t) (tr : bool) :
  open inp w k canceler fs (Offset (initState cursor fs)) = (Some rd, tr, None) ->
  exists d fi f0,
    file_ReadOpen w (newPath fs) = inr d /\
    Stat_result d = inr fi /\
    initFileOffset {| fd := d; position := 0; closed := false |}
      (if tr then 0 else Offset (initState cursor fs)) = (f0, None) /\
    pipeline_file rd = Some (fst (inp_encodingFactory inp f0)) /\
    (Size fi < Offset (initState cursor fs) ->
       tr = true /\
       Run_open inp w k canceler fs cursor = inr (Some rd, {| Offset := 0 |}) /\
       pipeline_base_offset rd = Some 0 /\
       position f0 = 0) /\
    (Offset (initState cursor fs) <= Size fi ->
       tr = false /\
       Run_open inp w k canceler fs cursor = inr (Some rd, initState cursor fs) /\
       pipeline_base_offset rd = Some (Offset (initState cursor fs)) /\
       position f0 = Z.max 0 (Offset (initState cursor fs))).
Proof.
  intros Hopen.
  destruct (open_success _ _ _ _ _ _ _ _ Hopen) as (f & enc & Hof & Hrd).
  destruct (openFile_success _ _ _ _ _ _ _ Hof) as (d & fi & f0 & Hd & Hfi & Htr & Hseek & Henc).
  exists d, fi, f0.
  split; [exact Hd|]. split; [exact Hfi|]. split; [exact Hseek|].
  split; [rewrite Hrd, Henc; reflexivity|].
  pose proof (initFileOffset_position _ _ _ Hseek) as Hpos.
  split.
  - intros Hlt.
    assert (tr = true) as -> by (rewrite Htr; apply Z.ltb_lt; exact Hlt).
    split; [reflexivity|]. split.
    + unfold Run_open. rewrite Hopen. reflexivity.
    + split; [rewrite Hrd; reflexivity | exact Hpos].
  - intros Hge.
    assert (tr = false) as -> by (rewrite Htr; apply Z.ltb_ge; exact Hge).
    split; [reflexivity|]. split.
    + unfold Run_open. rewrite Hopen. reflexivity.
    + split; [rewrite Hrd; reflexivity | exact Hpos].
Qed.

(** C2, as the code has it.  The pipeline of a successful open hands the
    decode stage [MaxBytes * 4] computed in the machine's integers, which is
    exactly four times the configured maximum whenever that product fits;
    its last stage is a limit stage with bound exactly the configured
    maximum; and so, for a maximum that is not negative, the content of
    whatever the pipeline emits is at most that long, whatever the stages
    below produce. *)
Theorem open_size_policy (inp : filestream_t) (w : FileSystem) (k : Constructors)
    (canceler : Canceler) (fs : fileSource) (offset : Z) (rd : Reader_t) (tr : bool) :
  open inp w k canceler fs offset = (Some rd, tr, None) ->
  encode_ceiling rd = Some (mul64 (MaxBytes (inp_readerConfig inp)) 4) /\
  (in_int64 (4 * MaxBytes (inp_readerConfig inp)) ->
     encode_ceiling rd = Some (4 * MaxBytes (inp_readerConfig inp))) /\
  final_limit rd = Some (MaxBytes (inp_readerConfig inp)) /\
  (0 <= MaxBytes (inp_readerConfig inp) ->
     forall stage_Next : Reader_t -> reader.Message * option error,
       Z.of_nat (String.length (reader.Content (fst (Reader_Next stage_Next rd))))
       <= MaxBytes (inp_readerConfig inp)).
Proof.
  intros Hopen.
  destruct (open_success _ _ _ _ _ _ _ _ Hopen) as (f & enc & _ & ->).
  split; [reflexivity|]. split.
  - intros Hr. cbn [encode_ceiling cfg_MaxBytes]. f_equal.
    unfold mul64. rewrite Z.mul_comm. apply wrap64_id. exact Hr.
  - split; [reflexivity|].
    intros HM stage_Next. cbn [Reader_Next].
    apply LimitReader_Next_bound. exact HM.
Qed.

(** C5.  The closer configuration the pipeline is built with: for an
    archived source whose configuration does not close on EOF, it closes on
    EOF and keeps the configured interval and state-change settings;
    otherwise it is the configured one. *)
Theorem open_effective_closer (inp : filestream_t) (w : FileSystem) (k : Constructors)
    (canceler : Canceler) (fs : fileSource) (offset : Z) (rd : Reader_t) (tr : bool) :
  open inp w k canceler fs offset = (Some rd, tr, None) ->
  exists eff,
    pipeline_closer rd = Some eff /\
    (archived fs = true -> OnEOF (Reader (inp_closerConfig inp)) = false ->
       OnEOF (Reader eff) = true /\
       AfterInterval (Reader eff) = AfterInterval (Reader (inp_closerConfig inp)) /\
       OnStateChange eff = OnStateChange (inp_closerConfig inp)) /\
    (archived fs = false \/ OnEOF (Reader (inp_closerConfig inp)) = true ->
       eff = inp_closerConfig inp).
Proof.
  intros Hopen.
  destruct (open_success _ _ _ _ _ _ _ _ Hopen) as (f & enc & _ & ->).
  eexists. split; [reflexivity|]. split.
  - intros -> ->. cbn. auto.
  - intros [-> | ->]; [reflexivity|].
    rewrite andb_false_r. reflexivity.
Qed.

End OpenProperties.

Lemma open_truncation_witness :
  (exists rd,
     open default_input (example_world 0) no_failure tt (example_source 0 false) 12
       = (Some rd, true, None) /\
     Run_open default_input (example_world 0) no_failure tt (example_source 0 false)
       (stored 12) = inr (Some rd, {| Offset := 0 |}) /\
     pipeline_base_offset rd = Some 0) /\
  (exists rd,
     open default_input (example_world 12) no_failure tt (example_source 12 false) 6
       = (Some rd, false, None) /\
     Run_open default_input (example_world 12) no_failure tt (example_source 12 false)
       (stored 6) = inr (Some rd, {| Offset := 6 |}) /\
     pipeline_base_offset rd = Some 6).
Proof.
  split.
  - eexists. split; [vm_compute; reflexivity|].
    edestruct (open_truncation (Canceler := unit) default_input (example_world 0)
                 no_failure tt (example_source 0 false) (stored 12))
      as (d & fi & f0 & Hd & Hfi & _ & _ & Hlt & _); [vm_compute; reflexivity|].
    injection Hd as <-. injection Hfi as <-.
    destruct Hlt as (_ & Hrun & Hbase & _); [vm_compute; reflexivity|].
    split; [exact Hrun | exact Hbase].
  - eexists. split; [vm_compute; reflexivity|].
    edestruct (open_truncation (Canceler := unit) default_input (example_world 12)
                 no_failure tt (example_source 12 false) (stored 6))
      as (d & fi & f0 & Hd & Hfi & _ & _ & _ & Hge); [vm_compute; reflexivity|].
    injection Hd as <-. injection Hfi as <-.
    destruct Hge as (_ & Hrun & Hbase & _); [vm_compute; discriminate|].
    split; [exact Hrun | exact Hbase].
Defined.

(** C2, as stated, fails where four times the maximum does not fit the
    machine's integers: with a maximum of [2^61] the decode stage is handed
    [-2^63]. *)
Lemma open_size_policy_counterexample :
  exists rd,
    open (example_input (example_reader [] [] (2 ^ 61)) false) (example_world 100)
      no_failure tt (example_source 100 false) 0 = (Some rd, false, None) /\
    encode_ceiling rd = Some (- 2 ^ 63) /\
    encode_ceiling rd <> Some (4 * 2 ^ 61).
Proof.
  eexists. split; [vm_compute; reflexivity|].
  split; [vm_compute; reflexivity|].
  vm_compute. discriminate.
Qed.

Lemma open_size_policy_witness :
  exists rd,
    open default_input (example_world 100) no_failure tt (example_source 100 false) 0
      = (Some rd, false, None) /\
    encode_ceiling rd = Some 41943040 /\
    final_limit rd = Some 10485760 /\
    forall stage_Next,
      Z.of_nat (String.length (reader.Content (fst (Reader_Next stage_Next rd))))
      <= 10485760.
Proof.
  eexists. split; [vm_compute; reflexivity|].
  edestruct (open_size_policy (Canceler := unit) default_input (example_world 100)
               no_failure tt (example_source 100 false) 0)
    as (_ & Hexact & Hlimit & Hbound); [vm_compute; reflexivity|].
  split; [apply Hexact; vm_compute; split; discriminate|].
  split; [exact Hlimit|].
  apply Hbound. vm_compute. discriminate.
Defined.

Lemma open_effective_closer_witness :
  exists rd eff,
    open default_input (example_world 100) no_failure tt (example_source 100 true) 0
      = (Some rd, false, None) /\
    pipeline_closer rd = Some eff /\
    OnEOF (Reader eff) = true /\
    AfterInterval (Reader eff) = 300.
Proof.
  eexists.
  edestruct (open_effective_closer (Canceler := unit) default_input (example_world 100)
               no_failure tt (example_source 100 true) 0)
    as (eff & Heff & Harch & _); [vm_compute; reflexivity|].
  exists eff.
  split; [vm_compute; reflexivity|].
  split; [exact Heff|].
  destruct Harch as (Heof & Hint & _); [reflexivity | reflexivity |].
  split; [exact Heof | exact Hint].
Defined.

(** ** The read loop *)

Lemma wrap64_add_r (x y : Z) : wrap64 (x + wrap64 y) = wrap64 (x + y).
Proof.
  unfold wrap64. f_equal.
  replace (x + ((y + 2 ^ 63) mod 2 ^ 64 - 2 ^ 63) + 2 ^ 63)
    with (x + (y + 2 ^ 63) mod 2 ^ 64) by lia.
  rewrite Zplus_mod_idemp_r. f_equal. lia.
Qed.

Lemma wrap64_add_l (x y : Z) : wrap64 (wrap64 x + y) = wrap64 (x + y).
Proof. rewrite (Z.add_comm (wrap64 x)), wrap64_add_r. f_equal. lia. Qed.

(** The statement [s.Offset += int64(message.Bytes) + int64(message.Offset)]
    adds the consumed bytes modulo [2^64]. *)
Lemma advance_Offset (s : state) (m : reader.Message) :
  Offset (advance s m) = wrap64 (Offset s + consumed m).
Proof.
  unfold advance, consumed, add64, to_int64. cbn [Offset].
  rewrite wrap64_add_r, Z.add_assoc, wrap64_add_r.
  replace (Offset s + wrap64 (reader.Bytes m) + reader.Offset m)
    with (Offset s + reader.Offset m + wrap64 (reader.Bytes m)) by lia.
  rewrite wrap64_add_r. f_equal. lia.
Qed.

Lemma fold_advance_Offset (ms : list reader.Message) (s : state) :
  in_int64 (Offset s) ->
  Offset (fold_left advance ms s) = wrap64 (Offset s + total_consumed ms).
Proof.
  revert s. induction ms as [|m ms IH]; intros s Hs; cbn [fold_left total_consumed foldr].
  - rewrite Z.add_0_r, wrap64_id; auto.
  - rewrite IH by (rewrite advance_Offset; apply wrap64_range).
    rewrite advance_Offset, wrap64_add_l. f_equal.
    fold (total_consumed ms). lia.
Qed.

Section LoopProperties.

Context {stateChangeCloserConfig Encoding parser_Config : Type}.
Variable IsEmpty : reader.Message -> bool.

Local Abbreviation filestream_t :=
  (filestream stateChangeCloserConfig Encoding parser_Config).

Lemma for_loop_app (inp : filestream_t) (pre rest : list step) (ls : loop_state) :
  for_loop IsEmpty inp (pre ++ rest) ls =
  match for_loop IsEmpty inp pre ls with
  | (Pending, ls') => for_loop IsEmpty inp rest ls'
  | returned => returned
  end.
Proof.
  revert ls. induction pre as [|st pre IH]; intros ls; cbn [app for_loop].
  - reflexivity.
  - destruct (iteration IsEmpty inp st ls) as [ls'|err ls'].
    + apply IH.
    + reflexivity.
Qed.

Lemma readFromSource_for_loop (inp : filestream_t) (script : list step) (s : state)
    (metrics : Metrics) :
  readFromSource IsEmpty inp script s metrics =
  match for_loop IsEmpty inp script (loop_start s metrics) with
  | (Returned err, ls) =>
      (Returned err, {| ls_state := ls_state ls;
                        ls_metrics := readFromSource_deferred (ls_metrics ls);
                        ls_published := ls_published ls |})
  | (Pending, ls) => (Pending, ls)
  end.
Proof. reflexivity. Qed.

Lemma readFromSource_pending (inp : filestream_t) (script : list step) (s : state)
    (metrics : Metrics) :
  fst (readFromSource IsEmpty inp script s metrics) = Pending ->
  for_loop IsEmpty inp script (loop_start s metrics)
  = (Pending, snd (readFromSource IsEmpty inp script s metrics)).
Proof.
  rewrite readFromSource_for_loop.
  destruct (for_loop IsEmpty inp script (loop_start s metrics)) as [[err|] ls];
    cbn [fst snd]; [discriminate | reflexivity].
Qed.

(** A run over [pre ++ rest] whose first part does not return goes on with
    [rest] from where the first part left the loop. *)
Lemma readFromSource_app (inp : filestream_t) (pre rest : list step) (s : state)
    (metrics : Metrics) :
  fst (readFromSource IsEmpty inp pre s metrics) = Pending ->
  readFromSource IsEmpty inp (pre ++ rest) s metrics =
  match for_loop IsEmpty inp rest (snd (readFromSource IsEmpty inp pre s metrics)) with
  | (Returned err, ls) =>
      (Returned err, {| ls_state := ls_state ls;
                        ls_metrics := readFromSource_deferred (ls_metrics ls);
                        ls_published := ls_published ls |})
  | (Pending, ls) => (Pending, ls)
  end.
Proof.
  intros Hp. rewrite (readFromSource_for_loop inp (pre ++ rest)).
  rewrite for_loop_app, (readFromSource_pending _ _ _ _ Hp). reflexivity.
Qed.

(** A loop that returns, returns at some turn of its script; the turns
    before it did not return. *)
Lemma for_loop_returned (inp : filestream_t) (script : list step) (ls : loop_state)
    (err : option error) (ls' : loop_state) :
  for_loop IsEmpty inp script ls = (Returned err, ls') ->
  exists pre st rest ls1,
    script = pre ++ st :: rest /\
    for_loop IsEmpty inp pre ls = (Pending, ls1) /\
    iteration IsEmpty inp st ls1 = Return err ls'.
Proof.
  revert ls. induction script as [|st script IH]; intros ls; cbn [for_loop].
  - discriminate.
  - destruct (iteration IsEmpty inp st ls) as [ls1|e ls1] eqn:Hit.
    + intros H. destruct (IH _ H) as (pre & st' & rest & ls2 & -> & Hpre & Hst).
      exists (st :: pre), st', rest, ls2. cbn [app for_loop]. rewrite Hit. auto.
    + intros H. injection H as <- <-.
      exists [], st, script, ls. auto.
Qed.

Lemma iteration_returns_error (inp : filestream_t) (st : step) (ls ls' : loop_state)
    (err : error) :
  iteration IsEmpty inp st ls = Return (Some err) ls' ->
  exists message, st = NextMessage message (Some err) /\ dropped IsEmpty inp message = false.
Proof.
  destruct st as [|e|message publish]; cbn [iteration]; try discriminate.
  unfold dropped.
  destruct (IsEmpty message || isDroppedLine _ _) eqn:Hdrop; [discriminate|].
  destruct publish as [e|]; [|discriminate].
  intros H. injection H as -> _. exists message. split; [reflexivity | exact Hdrop].
Qed.


Lemma readFromSource_deferred_other (metrics : Metrics) (c : metric) :
  c <> FilesClosed -> c <> HarvesterOpenFiles -> c <> HarvesterClosed ->
  readFromSource_deferred metrics c = metrics c.
Proof.
  intros H1 H2 H3.
  unfold readFromSource_deferred, Metric_Inc, Metric_Dec, Metric_Add.
  repeat (destruct (decide _); [congruence|]). reflexivity.
Qed.

(** C7, as the code has it.  A read error other than a truncation, a closed
    reader or the end of the stream is counted once in the processing-error
    metric, and the loop ends there with [nil]: nothing after it is read or
    published. *)
Theorem read_failure_ends_loop (inp : filestream_t) (pre rest : list step) (err : error)
    (s : state) (metrics : Metrics) :
  fst (readFromSource IsEmpty inp pre s metrics) = Pending ->
  is_terminal_signal err = false ->
  fst (readFromSource IsEmpty inp (pre ++ NextError err :: rest) s metrics) = Returned None /\
  ls_metrics (snd (readFromSource IsEmpty inp (pre ++ NextError err :: rest) s metrics))
    ProcessingErrors
  = ls_metrics (snd (readFromSource IsEmpty inp pre s metrics)) ProcessingErrors + 1 /\
  ls_metrics (snd (readFromSource IsEmpty inp (pre ++ NextError err :: rest) s metrics))
    MessagesRead
  = ls_metrics (snd (readFromSource IsEmpty inp pre s metrics)) MessagesRead /\
  ls_published (snd (readFromSource IsEmpty inp (pre ++ NextError err :: rest) s metrics))
  = ls_published (snd (readFromSource IsEmpty inp pre s metrics)) /\
  ls_state (snd (readFromSource IsEmpty inp (pre ++ NextError err :: rest) s metrics))
  = ls_state (snd (readFromSource IsEmpty inp pre s metrics)).
Proof.
  intros Hp Hterm.
  rewrite (readFromSource_app _ _ _ _ _ Hp). cbn [for_loop iteration fst snd].
  unfold is_terminal_signal in Hterm.
  apply orb_false_elim in Hterm as [Hterm Heof].
  apply orb_false_elim in Hterm as [Htr Hcl].
  rewrite Htr, Hcl, Heof. cbn [ls_metrics ls_published ls_state].
  split; [reflexivity|]. split.
  - rewrite readFromSource_deferred_other by discriminate.
    unfold Metric_Inc, Metric_Add. destruct (decide _); [reflexivity | congruence].
  - split; [|split; reflexivity].
    rewrite readFromSource_deferred_other by discriminate.
    unfold Metric_Inc, Metric_Add. destruct (decide _); [discriminate | reflexivity].
Qed.

Lemma for_loop_pending_state (inp : filestream_t) (pre : list step) (ls ls' : loop_state) :
  for_loop IsEmpty inp pre ls = (Pending, ls') ->
  ls_state ls' = fold_left advance (messages_of pre) (ls_state ls).
Proof.
  revert ls. induction pre as [|st pre IH]; intros ls; cbn [for_loop].
  - intros H. injection H as <-. reflexivity.
  - destruct st as [|e|message publish]; cbn [iteration]; try discriminate.
    change (messages_of (NextMessage message publish :: pre))
      with (message :: messages_of pre).
    cbn [fold_left]. fold (advance (ls_state ls) message).
    destruct (IsEmpty message || isDroppedLine _ _).
    + intros H. apply IH in H. exact H.
    + destruct publish as [e|]; [discriminate|].
      intros H. apply IH in H. exact H.
Qed.

(** The calls to the publisher only ever grow at the end. *)
Lemma for_loop_published (inp : filestream_t) (script : list step) (ls : loop_state) :
  exists tail,
    ls_published (snd (for_loop IsEmpty inp script ls)) = ls_published ls ++ tail.
Proof.
  revert ls. induction script as [|st script IH]; intros ls; cbn [for_loop].
  - exists []. cbn [snd]. rewrite app_nil_r. reflexivity.
  - destruct st as [|e|message publish]; cbn [iteration].
    + exists []. cbn [snd]. rewrite app_nil_r. reflexivity.
    + exists []. cbn [snd ls_published]. rewrite app_nil_r. reflexivity.
    + destruct (IsEmpty message || isDroppedLine _ _).
      * destruct (IH {| ls_state := advance (ls_state ls) message;
                        ls_metrics := Metric_Inc MessagesRead
                                        (count_truncated message (ls_metrics ls));
                        ls_published := ls_published ls |}) as [tail Ht].
        exists tail. exact Ht.
      * destruct publish as [e|].
        -- eexists. cbn [snd ls_published]. reflexivity.
        -- match goal with
           | |- context [for_loop IsEmpty inp script ?l] => destruct (IH l) as [tail Ht]
           end.
           rewrite Ht. cbn [ls_published]. rewrite <- app_assoc.
           eexists. reflexivity.
Qed.

(** C9.  The state offset is advanced by every message [Next] returns,
    before the message is tested for emptiness and against the filters: the
    dropped ones count too; and the call that publishes a message passes,
    with the event, the state already advanced by that message. *)
Theorem offset_advanced_before_filters (inp : filestream_t) (pre rest : list step)
    (message : reader.Message) (publish : option error) (s : state) (metrics : Metrics) :
  fst (readFromSource IsEmpty inp pre s metrics) = Pending ->
  ls_state (snd (readFromSource IsEmpty inp pre s metrics))
    = fold_left advance (messages_of pre) s /\
  (in_int64 (Offset s) ->
     Offset (ls_state (snd (readFromSource IsEmpty inp pre s metrics)))
     = wrap64 (Offset s + total_consumed (messages_of pre))) /\
  (dropped IsEmpty inp message = true ->
     fst (readFromSource IsEmpty inp (pre ++ [NextMessage message publish]) s metrics)
       = Pending /\
     ls_state (snd (readFromSource IsEmpty inp (pre ++ [NextMessage message publish])
                      s metrics))
       = advance (fold_left advance (messages_of pre) s) message /\
     ls_published (snd (readFromSource IsEmpty inp (pre ++ [NextMessage message publish])
                          s metrics))
       = ls_published (snd (readFromSource IsEmpty inp pre s metrics))) /\
  (dropped IsEmpty inp message = false ->
     exists tail,
       ls_published (snd (readFromSource IsEmpty inp
                            (pre ++ NextMessage message publish :: rest) s metrics))
       = ls_published (snd (readFromSource IsEmpty inp pre s metrics))
           ++ (published_event inp message,
               advance (fold_left advance (messages_of pre) s) message) :: tail).
Proof.
  intros Hp.
  pose proof (for_loop_pending_state _ _ _ _ (readFromSource_pending _ _ _ _ Hp)) as Hst.
  cbn [loop_start ls_state] in Hst.
  split; [exact Hst|]. split.
  - intros Hs. rewrite Hst. apply fold_advance_Offset. exact Hs.
  - split.
    + intros Hdrop. unfold dropped in Hdrop.
      rewrite (readFromSource_app _ _ _ _ _ Hp). cbn [for_loop iteration].
      rewrite Hdrop. cbn [fst snd ls_state ls_published].
      rewrite Hst. auto.
    + intros Hdrop. unfold dropped in Hdrop.
      rewrite (readFromSource_app _ _ _ _ _ Hp). cbn [for_loop iteration].
      rewrite Hdrop. rewrite Hst.
      fold (advance (fold_left advance (messages_of pre) s) message).
      destruct publish as [e|].
      * exists []. reflexivity.
      * match goal with
        | |- context [for_loop IsEmpty inp rest ?l] =>
            destruct (for_loop_published inp rest l) as [tail Ht];
            destruct (for_loop IsEmpty inp rest l) as [[e|] l']
        end; cbn [snd ls_published] in Ht |- *; rewrite Ht, <- app_assoc;
          exists tail; reflexivity.
Qed.

Lemma StronglySorted_snoc (l : list Z) (x : Z) :
  StronglySorted Z.le l -> Forall (fun y => y <= x) l -> StronglySorted Z.le (l ++ [x]).
Proof.
  induction 1 as [|a l Hs IH Ha]; intros Hall; cbn [app].
  - repeat constructor.
  - inversion Hall as [|? ? Hax Hl]; subst. constructor; [auto|].
    apply Forall_app. split; [exact Ha | repeat constructor; exact Hax].
Qed.

Lemma total_consumed_nonneg (ms : list reader.Message) :
  Forall (fun m => 0 <= consumed m) ms -> 0 <= total_consumed ms.
Proof.
  induction 1 as [|m ms Hm _ IH]; cbn [total_consumed foldr].
  - lia.
  - fold (total_consumed ms). lia.
Qed.

(** The invariant of the loop: the offsets published so far are in order
    and none exceeds the current state offset. *)
Lemma for_loop_offsets_sorted (inp : filestream_t) (script : list step) (ls : loop_state) :
  in_int64 (Offset (ls_state ls)) ->
  Forall (fun m => 0 <= consumed m) (messages_of script) ->
  Offset (ls_state ls) + total_consumed (messages_of script) <= max_int64 ->
  StronglySorted Z.le (published_offsets ls) ->
  Forall (fun o => o <= Offset (ls_state ls)) (published_offsets ls) ->
  StronglySorted Z.le (published_offsets (snd (for_loop IsEmpty inp script ls))).
Proof.
  revert ls. induction script as [|st script IH]; intros ls Hr Hnn Hmax Hsort Hle;
    cbn [for_loop].
  - exact Hsort.
  - destruct st as [|e|message publish]; cbn [iteration].
    + exact Hsort.
    + exact Hsort.
    + change (messages_of (NextMessage message publish :: script))
        with (message :: messages_of script) in Hnn, Hmax.
      inversion Hnn as [|? ? Hm Hrest]; subst.
      cbn [total_consumed foldr] in Hmax. fold (total_consumed (messages_of script)) in Hmax.
      pose proof (total_consumed_nonneg _ Hrest) as Htot.
      fold (advance (ls_state ls) message).
      assert (Hadv : Offset (advance (ls_state ls) message)
                     = Offset (ls_state ls) + consumed message).
      { rewrite advance_Offset. apply wrap64_id.
        unfold in_int64 in *. lia. }
      assert (Hle' : Forall (fun o => o <= Offset (advance (ls_state ls) message))
                       (published_offsets ls)).
      { eapply Forall_impl; [exact Hle|]. cbn beta. intros o Ho. lia. }
      destruct (IsEmpty message || isDroppedLine _ _).
      * apply IH; cbn [ls_state]; auto.
        -- rewrite Hadv. unfold in_int64 in *. lia.
        -- rewrite Hadv. lia.
      * assert (Hsort' : StronglySorted Z.le
                  (published_offsets ls ++ [Offset (advance (ls_state ls) message)]))
          by (apply StronglySorted_snoc; assumption).
        destruct publish as [e|]; cbn [snd].
        -- unfold published_offsets. cbn [ls_published]. rewrite map_app. exact Hsort'.
        -- apply IH; cbn [ls_state]; unfold published_offsets; cbn [ls_published];
             rewrite ?map_app; cbn [map snd]; auto.
           ++ rewrite Hadv. unfold in_int64 in *. lia.
           ++ rewrite Hadv. lia.
           ++ apply Forall_app. split; [exact Hle' | repeat constructor; lia].
Qed.

Lemma for_loop_lower_bound (inp : filestream_t) (script : list step) (ls : loop_state)
    (lo : Z) :
  in_int64 (Offset (ls_state ls)) ->
  Forall (fun m => 0 <= consumed m) (messages_of script) ->
  Offset (ls_state ls) + total_consumed (messages_of script) <= max_int64 ->
  lo <= Offset (ls_state ls) ->
  Forall (fun o => lo <= o) (published_offsets ls) ->
  Forall (fun o => lo <= o) (published_offsets (snd (for_loop IsEmpty inp script ls))).
Proof.
  revert ls. induction script as [|st script IH]; intros ls Hr Hnn Hmax Hlo Hall;
    cbn [for_loop].
  - exact Hall.
  - destruct st as [|e|message publish]; cbn [iteration].
    + exact Hall.
    + exact Hall.
    + change (messages_of (NextMessage message publish :: script))
        with (message :: messages_of script) in Hnn, Hmax.
      inversion Hnn as [|? ? Hm Hrest]; subst.
      cbn [total_consumed foldr] in Hmax. fold (total_consumed (messages_of script)) in Hmax.
      pose proof (total_consumed_nonneg _ Hrest) as Htot.
      fold (advance (ls_state ls) message).
      assert (Hadv : Offset (advance (ls_state ls) message)
                     = Offset (ls_state ls) + consumed message).
      { rewrite advance_Offset. apply wrap64_id.
        unfold in_int64 in *. lia. }
      destruct (IsEmpty message || isDroppedLine _ _).
      * apply IH; cbn [ls_state]; auto; rewrite Hadv; unfold in_int64 in *; lia.
      * assert (Hall' : Forall (fun o => lo <= o)
                  (published_offsets ls ++ [Offset (advance (ls_state ls) message)]))
          by (apply Forall_app; split; [exact Hall | repeat constructor; lia]).
        destruct publish as [e|]; cbn [snd].
        -- unfold published_offsets. cbn [ls_published]. rewrite map_app. exact Hall'.
        -- apply IH; cbn [ls_state]; unfold published_offsets; cbn [ls_published];
             rewrite ?map_app; cbn [map snd]; auto;
             rewrite Hadv; unfold in_int64 in *; lia.
Qed.

(** C8.  In a run of the read loop whose records each consumed a number of
    bytes that is not negative, and whose offsets stay within the 64-bit
    range of a file offset, the offsets published with successive records
    never decrease, and the state offset after the records read is the
    initial one plus the bytes they consumed.  A truncation reported by
    [Next] ends the run, so no offset of a run follows one. *)
Theorem published_offsets_monotone (inp : filestream_t) (script : list step) (s : state)
    (metrics : Metrics) :
  in_int64 (Offset s) ->
  Forall (fun m => 0 <= consumed m) (messages_of script) ->
  Offset s + total_consumed (messages_of script) <= max_int64 ->
  StronglySorted Z.le
    (published_offsets (snd (readFromSource IsEmpty inp script s metrics))) /\
  Forall (fun o => Offset s <= o)
    (published_offsets (snd (readFromSource IsEmpty inp script s metrics))) /\
  (fst (readFromSource IsEmpty inp script s metrics) = Pending ->
   Offset (ls_state (snd (readFromSource IsEmpty inp script s metrics)))
   = Offset s + total_consumed (messages_of script)).
Proof.
  intros Hr Hnn Hmax.
  assert (Hsorted : StronglySorted Z.le
            (published_offsets (snd (readFromSource IsEmpty inp script s metrics)))).
  { rewrite readFromSource_for_loop.
    pose proof (for_loop_offsets_sorted inp script (loop_start s metrics)) as H.
    cbn [loop_start ls_state] in H. specialize (H Hr Hnn Hmax).
    destruct (for_loop IsEmpty inp script (loop_start s metrics)) as [[e|] ls'];
      cbn [snd] in H |- *; apply H; constructor. }
  split; [exact Hsorted|]. split.
  - rewrite readFromSource_for_loop.
    pose proof (for_loop_lower_bound inp script (loop_start s metrics) (Offset s)) as H.
    cbn [loop_start ls_state] in H. specialize (H Hr Hnn Hmax (Z.le_refl _)).
    destruct (for_loop IsEmpty inp script (loop_start s metrics)) as [[e|] ls'];
      cbn [snd] in H |- *; apply H; constructor.
  - intros Hp.
    pose proof (for_loop_pending_state _ _ _ _ (readFromSource_pending _ _ _ _ Hp)) as Hst.
    cbn [loop_start ls_state] in Hst.
    rewrite Hst, fold_advance_Offset by exact Hr.
    apply wrap64_id. pose proof (total_consumed_nonneg _ Hnn).
    unfold in_int64 in *. lia.
Qed.

End LoopProperties.


(** C7, as stated, fails: after a read failure the loop does not go on to
    the next record.  The line that follows the failure is never read, and
    the function has returned; without the failure it is published. *)
Lemma read_failure_continues_counterexample :
  fst (readFromSource no_bytes default_input failure_then_line {| Offset := 6 |}
         zero_metrics) = Returned None /\
  ls_metrics (snd (readFromSource no_bytes default_input failure_then_line
                     {| Offset := 6 |} zero_metrics)) ProcessingErrors = 1 /\
  ls_metrics (snd (readFromSource no_bytes default_input failure_then_line
                     {| Offset := 6 |} zero_metrics)) MessagesRead = 0 /\
  ls_published (snd (readFromSource no_bytes default_input failure_then_line
                       {| Offset := 6 |} zero_metrics)) = [] /\
  ls_published (snd (readFromSource no_bytes default_input
                       [NextMessage (line "line2" 6) None]
                       {| Offset := 6 |} zero_metrics))
  = [(ToEvent (line "line2" 6), {| Offset := 12 |})].
Proof. repeat split; vm_compute; reflexivity. Qed.

Lemma read_failure_ends_loop_witness :
  fst (readFromSource no_bytes default_input failure_then_line {| Offset := 6 |}
         zero_metrics) = Returned None /\
  ls_metrics (snd (readFromSource no_bytes default_input failure_then_line
                     {| Offset := 6 |} zero_metrics)) ProcessingErrors = 0 + 1.
Proof.
  destruct (read_failure_ends_loop no_bytes default_input []
              [NextMessage (line "line2" 6) None] (ErrOther "invalid encoding")
              {| Offset := 6 |} zero_metrics)
    as (Hret & Hcount & _); [reflexivity | vm_compute; reflexivity |].
  split; [exact Hret | exact Hcount].
Defined.

Lemma published_offsets_monotone_witness :
  published_offsets (snd (readFromSource no_bytes default_input scenario_A
                            {| Offset := 0 |} zero_metrics)) = [6; 12] /\
  StronglySorted Z.le [6; 12].
Proof.
  split; [vm_compute; reflexivity|].
  destruct (published_offsets_monotone no_bytes default_input scenario_A
              {| Offset := 0 |} zero_metrics) as (Hsorted & _).
  - vm_compute. split; discriminate.
  - vm_compute. repeat constructor; discriminate.
  - vm_compute. discriminate.
  - exact Hsorted.
Defined.

Lemma offset_advanced_before_filters_witness :
  exists tail,
    ls_published (snd (readFromSource no_bytes errors_only_input dropped_then_line
                         {| Offset := 0 |} zero_metrics))
    = (ToEvent (line "ERROR y" 8), {| Offset := 16 |}) :: tail.
Proof.
  destruct (offset_advanced_before_filters no_bytes errors_only_input
              [NextMessage (line "DEBUG x" 8) None] [] (line "ERROR y" 8) None
              {| Offset := 0 |} zero_metrics)
    as (_ & _ & _ & Hpub); [reflexivity|].
  destruct Hpub as [tail Ht]; [vm_compute; reflexivity|].
  exists tail. exact Ht.
Defined.

(** ** The initial state *)

(** C10.  [initState] yields offset 0 when the cursor is new, when the
    source is flagged truncated, and when the stored data does not unpack
    (the run then goes on as from a new cursor); in every other case it
    yields the stored offset; and there is no further case. *)
Theorem initState_spec {SC Enc PC Can : Type} (inp : filestream SC Enc PC)
    (w : FileSystem) (k : Constructors) (canceler : Can)
    (c : loginp_Cursor) (s : fileSource) :
  (Cursor_IsNew c = true \/ truncated s = true \/
   (exists err, snd (Cursor_Unpack c {| Offset := 0 |}) = Some err) ->
     initState c s = {| Offset := 0 |}) /\
  (forall o, Cursor_IsNew c = false -> truncated s = false ->
     stored_offset c = Some o -> Offset (initState c s) = o) /\
  (Cursor_IsNew c = true \/ truncated s = true \/
   (exists err, snd (Cursor_Unpack c {| Offset := 0 |}) = Some err) \/
   (exists o, stored_offset c = Some o)) /\
  (Offset (initState c s) = 0 ->
     Cursor_IsNew c = true \/ truncated s = true \/
     (exists err, snd (Cursor_Unpack c {| Offset := 0 |}) = Some err) \/
     stored_offset c = Some 0) /\
  (forall err,
     c = StoredCursor (Undecodable err) ->
     Run_open inp w k canceler s c = Run_open inp w k canceler s AbsentCursor).
Proof.
  unfold Run_open, initState.
  destruct c as [|[[o]|err]]; destruct (truncated s) eqn:Ht;
    cbn [Cursor_IsNew Cursor_Unpack stored_offset fst snd orb Offset];
    repeat split; intros;
    repeat match goal with
           | H : _ \/ _ |- _ => destruct H
           | H : exists _, _ |- _ => destruct H
           end;
    try discriminate; try congruence;
    first [ left; reflexivity
          | right; left; reflexivity
          | right; right; left; eexists; reflexivity
          | right; right; right; eexists; reflexivity
          | right; right; right; congruence ].
Qed.

Lemma initState_spec_witness :
  initState (StoredCursor (Undecodable (ErrOther "offset is not a number")))
    (example_source 12 false) = {| Offset := 0 |} /\
  Offset (initState (stored 12) (example_source 12 false)) = 12.
Proof.
  split.
  - apply (proj1 (initState_spec default_input (example_world 12) no_failure tt
                    (StoredCursor (Undecodable (ErrOther "offset is not a number")))
                    (example_source 12 false))).
    right. right. eexists. reflexivity.
  - apply (proj1 (proj2 (initState_spec default_input (example_world 12) no_failure tt
                           (stored 12) (example_source 12 false)))); reflexivity.
Defined.

(** ** File identifiers *)

(** C6.  The names the identifiers give.  Path: [path::] and the new path,
    also on a rename, and [path::] and the old path on a delete.
    Fingerprint: [fingerprint::] and the descriptor's fingerprint, so events
    with one fingerprint - before and after a rename - get one name.
    Native: [native::] and the printed device and inode, then [-suffix] when
    a suffix is configured; so descriptors of one device and inode get one
    name, whatever the size of the file. *)
Theorem identifier_names (StateOS_String : StateOS -> string) :
  (forall e, identifier.Op e <> identifier.OpDelete ->
     identifier.GetSource_Name StateOS_String identifier.pathIdentifier e
     = "path::" +:+ identifier.NewPath e) /\
  (forall e, identifier.Op e = identifier.OpDelete ->
     identifier.GetSource_Name StateOS_String identifier.pathIdentifier e
     = "path::" +:+ identifier.OldPath e) /\
  (forall e,
     identifier.GetSource_Name StateOS_String identifier.fingerprintIdentifier e
     = "fingerprint::" +:+ Fingerprint (identifier.Descriptor e)) /\
  (forall e e',
     Fingerprint (identifier.Descriptor e) = Fingerprint (identifier.Descriptor e') ->
     identifier.GetSource_Name StateOS_String identifier.fingerprintIdentifier e
     = identifier.GetSource_Name StateOS_String identifier.fingerprintIdentifier e') /\
  (forall e,
     identifier.GetSource_Name StateOS_String (identifier.inodeDeviceIdentifier "") e
     = "native::" +:+ StateOS_String (GetOSState (Info (identifier.Descriptor e)))) /\
  (forall suffix e, suffix <> "" ->
     identifier.GetSource_Name StateOS_String (identifier.inodeDeviceIdentifier suffix) e
     = ("native::" +:+ StateOS_String (GetOSState (Info (identifier.Descriptor e))))
         +:+ "-" +:+ suffix) /\
  (forall suffix e e',
     GetOSState (Info (identifier.Descriptor e))
     = GetOSState (Info (identifier.Descriptor e')) ->
     identifier.GetSource_Name StateOS_String (identifier.inodeDeviceIdentifier suffix) e
     = identifier.GetSource_Name StateOS_String (identifier.inodeDeviceIdentifier suffix) e').
Proof.
  repeat split.
  - intros e He. cbn. destruct (decide _); [contradiction | reflexivity].
  - intros e He. cbn. destruct (decide _); [reflexivity | contradiction].
  - intros e e' H. cbn. rewrite H. reflexivity.
  - intros suffix e Hs. cbn. destruct (decide _); [contradiction | reflexivity].
  - intros suffix e e' H. cbn. rewrite H. reflexivity.
Qed.

Lemma identifier_names_witness :
  identifier.GetSource_Name print_StateOS identifier.pathIdentifier rename_event
  = "path::/new/path/to/file" /\
  identifier.GetSource_Name print_StateOS identifier.pathIdentifier delete_event
  = "path::/old/path/to/file" /\
  identifier.GetSource_Name print_StateOS identifier.fingerprintIdentifier rename_event
  = identifier.GetSource_Name print_StateOS identifier.fingerprintIdentifier delete_event /\
  identifier.GetSource_Name print_StateOS (identifier.inodeDeviceIdentifier "my-suffix")
    rename_event
  = identifier.GetSource_Name print_StateOS (identifier.inodeDeviceIdentifier "my-suffix")
      grown_event.
Proof.
  destruct (identifier_names print_StateOS) as (Hnew & Hold & _ & Hfp & _ & _ & Hnative).
  split; [apply (Hnew rename_event); discriminate|].
  split; [apply (Hold delete_event); reflexivity|].
  split; [apply (Hfp rename_event delete_event); reflexivity|].
  apply (Hnative "my-suffix" rename_event grown_event). reflexivity.
Defined.

(** ** The scenarios of the specification, run end to end *)

(** Scenario A: a new source with the lines [line1] and [line2]; two records
    are published, with offsets 6 and 12, and the run ends cleanly. *)
Example Run_scenario_A :
  fst (Run no_bytes default_input (example_world 12) no_failure tt
         (IsFileSource (example_source 12 false)) AbsentCursor scenario_A zero_metrics)
  = Returned None /\
  ls_published (snd (Run no_bytes default_input (example_world 12) no_failure tt
                       (IsFileSource (example_source 12 false)) AbsentCursor
                       scenario_A zero_metrics))
  = [(ToEvent (line "line1" 6), {| Offset := 6 |});
     (ToEvent (line "line2" 6), {| Offset := 12 |})].
Proof. split; vm_compute; reflexivity. Qed.

(** Scenario B: resumed at 12 on a file of 5 bytes; the offset restarts at 0
    and [new1] is published with offset 5. *)
Example Run_scenario_B :
  ls_published (snd (Run no_bytes default_input (example_world 5) no_failure tt
                       (IsFileSource (example_source 5 false)) (stored 12)
                       scenario_B zero_metrics))
  = [(ToEvent (line "new1" 5), {| Offset := 5 |})].
Proof. vm_compute. reflexivity. Qed.

(** Scenario C: under the path identifier a rename gives a new name. *)
Example rename_scenario_C :
  identifier.GetSource_Name print_StateOS identifier.pathIdentifier
    {| identifier.NewPath := "/b/app.log"; identifier.OldPath := "/a/app.log";
       identifier.Op := identifier.OpRename;
       identifier.Descriptor := example_descriptor 0 |}
  = "path::/b/app.log".
Proof. reflexivity. Qed.

(** The names the identifier test expects for the native strategy. *)
Example native_names :
  identifier.GetSource_Name print_StateOS (identifier.inodeDeviceIdentifier "") grown_event
  = "native::1234-66306" /\
  identifier.GetSource_Name print_StateOS (identifier.inodeDeviceIdentifier "my-suffix")
    grown_event
  = "native::1234-66306-my-suffix".
Proof. split; vm_compute; reflexivity. Qed.

(** * Further properties of the code *)

(** ** Errors and their causes *)

Lemma errors_Is_refl (e : error) : errors_Is e e = true.
Proof. destruct e; cbn [errors_Is]; destruct (decide _); congruence. Qed.

Lemma errors_Is_Wrap (msg : string) (e target : error) :
  errors_Is e target = true -> errors_Is (Wrap msg e) target = true.
Proof. intros H. cbn [errors_Is]. destruct (decide _); auto. Qed.

(** ** More on opening *)

Section MoreOpenProperties.

Context {stateChangeCloserConfig Encoding parser_Config Canceler : Type}.

Local Abbreviation filestream_t :=
  (filestream stateChangeCloserConfig Encoding parser_Config).
Local Abbreviation Reader_t :=
  (reader_Reader stateChangeCloserConfig Encoding parser_Config Canceler).

(** X1.  A path that is a named pipe is refused before it is opened: the error
    comes back with no file and no truncation flag, and what opening the
    path would do plays no part. *)
Theorem openFile_named_pipe (inp : filestream_t) (w w' : FileSystem) (path : string)
    (offset : Z) (fi : FileInfo) :
  os_Stat w path = inr fi ->
  Mode_NamedPipe fi = true ->
  os_Stat w' path = inr fi ->
  (exists err, openFile inp w path offset = (None, None, false, Some err)) /\
  openFile inp w path offset = openFile inp w' path offset.
Proof.
  intros Hs Hp Hs'. unfold openFile. rewrite Hs, Hs', Hp.
  split; [eexists; reflexivity | reflexivity].
Qed.

(** X2.  A file that turns out not to be regular once it is opened is refused,
    and no truncation is reported for it, whatever its size. *)
Theorem openFile_non_regular (inp : filestream_t) (w : FileSystem) (k : Constructors)
    (canceler : Canceler) (fs : fileSource) (offset : Z)
    (fi0 fi : FileInfo) (d : Handle) :
  os_Stat w (newPath fs) = inr fi0 ->
  Mode_NamedPipe fi0 = false ->
  file_ReadOpen w (newPath fs) = inr d ->
  Stat_result d = inr fi ->
  Mode_IsRegular fi = false ->
  exists err,
    openFile inp w (newPath fs) offset = (None, None, false, Some err) /\
    open inp w k canceler fs offset = (None, false, Some err).
Proof.
  intros Hs Hp Ho Hf Hr.
  assert (H : exists err, openFile inp w (newPath fs) offset = (None, None, false, Some err)).
  { unfold openFile. rewrite Hs, Hp, Ho. cbn [fd]. rewrite Hf.
    unfold checkFileBeforeOpening. rewrite Hr. cbn [negb]. eexists. reflexivity. }
  destruct H as [err H]. exists err. split; [exact H|].
  unfold open. rewrite H. reflexivity.
Qed.

Lemma openFile_cases (inp : filestream_t) (w : FileSystem) (path : string)
    (offset : Z) :
  (exists f enc tr, openFile inp w path offset = (Some f, Some enc, tr, None)) \/
  (exists tr err, openFile inp w path offset = (None, None, tr, Some err)).
Proof.
  unfold openFile.
  destruct (os_Stat w path) as [e|fi0]; [right; eauto|].
  destruct (Mode_NamedPipe fi0); [right; eauto|].
  destruct (file_ReadOpen w path) as [e|d]; [right; eauto|].
  cbn [fd].
  destruct (Stat_result d) as [e|fi]; [right; eauto|].
  destruct (checkFileBeforeOpening fi); [right; eauto|].
  destruct (initFileOffset _ _) as [f0 [e|]]; [right; eauto|].
  destruct (inp_encodingFactory inp f0) as [f1 [e|enc]].
  - destruct (errors_Is e transform_ErrShortSrc); right; eauto.
  - left. eauto.
Qed.

Lemma open_cases (inp : filestream_t) (w : FileSystem) (k : Constructors)
    (canceler : Canceler) (fs : fileSource) (offset : Z) :
  (exists rd tr, open inp w k canceler fs offset = (Some rd, tr, None)) \/
  (exists tr err, open inp w k canceler fs offset = (None, tr, Some err)).
Proof.
  unfold open.
  destruct (openFile_cases inp w (newPath fs) offset)
    as [(f & enc & tr & ->) | (tr & err & ->)]; [|right; eauto].
  destruct (newFileReader_error k); [right; eauto|].
  destruct (AppendReaders_error k); [right; eauto|].
  destruct (NewEncodeReader_error k); [right; eauto|].
  left. eauto.
Qed.

(** X3.  [openFile] hands back a file with its encoding and no error, or an
    error with neither file nor encoding; nothing in between.  A file comes
    back only from a path that was opened, whose descriptor is a regular
    file. *)
Theorem openFile_result_shape (inp : filestream_t) (w : FileSystem) (path : string)
    (offset : Z) :
  ((exists f enc tr, openFile inp w path offset = (Some f, Some enc, tr, None)) \/
   (exists tr err, openFile inp w path offset = (None, None, tr, Some err))) /\
  (forall f enc tr,
     openFile inp w path offset = (Some f, Some enc, tr, None) ->
     exists d fi, file_ReadOpen w path = inr d /\ Stat_result d = inr fi /\
                  Mode_IsRegular fi = true).
Proof.
  split; [apply openFile_cases|].
  intros f enc tr. unfold openFile.
  destruct (os_Stat w path) as [e|fi0]; [discriminate|].
  destruct (Mode_NamedPipe fi0); [discriminate|].
  destruct (file_ReadOpen w path) as [e|d]; [discriminate|].
  cbn [fd].
  destruct (Stat_result d) as [e|fi] eqn:Hf; [discriminate|].
  unfold checkFileBeforeOpening.
  destruct (Mode_IsRegular fi) eqn:Hr; cbn [negb]; [|discriminate].
  intros _. exists d, fi. auto.
Qed.

(** X4.  The truncation flag is raised only for a regular file that was opened
    and is smaller than the offset asked for - also when the open then
    fails. *)
Theorem openFile_truncated_sound (inp : filestream_t) (w : FileSystem) (path : string)
    (offset : Z) (ofile : option File) (oenc : option Encoding) (oerr : option error) :
  openFile inp w path offset = (ofile, oenc, true, oerr) ->
  exists d fi,
    file_ReadOpen w path = inr d /\
    Stat_result d = inr fi /\
    Mode_IsRegular fi = true /\
    Size fi < offset.
Proof.
  unfold openFile.
  destruct (os_Stat w path) as [e|fi0]; [discriminate|].
  destruct (Mode_NamedPipe fi0); [discriminate|].
  destruct (file_ReadOpen w path) as [e|d]; [discriminate|].
  cbn [fd].
  destruct (Stat_result d) as [e|fi] eqn:Hf; [discriminate|].
  unfold checkFileBeforeOpening.
  destruct (Mode_IsRegular fi) eqn:Hr; cbn [negb]; [|discriminate].
  intros H.
  assert (Ht : (Size fi <? offset) = true).
  { destruct (initFileOffset _ _) as [f0 [e|]]; [congruence|].
    destruct (inp_encodingFactory inp f0) as [f1 [e|enc]]; [|congruence].
    destruct (errors_Is e transform_ErrShortSrc); congruence. }
  exists d, fi. repeat split; auto. apply Z.ltb_lt. exact Ht.
Qed.

(** X5.  The error of a failed [openFile] keeps its cause where the code wraps
    it: a failed stat, a failed open and a failed encoding set-up can be
    matched against their cause; the error for a source too short to detect
    the encoding does not carry [transform.ErrShortSrc]. *)
Theorem openFile_error_cause (inp : filestream_t) (w : FileSystem) (path : string)
    (offset : Z) :
  (forall e, os_Stat w path = inl e ->
     exists err, openFile inp w path offset = (None, None, false, Some err) /\
                 errors_Is err e = true) /\
  (forall fi0 e, os_Stat w path = inr fi0 -> Mode_NamedPipe fi0 = false ->
     file_ReadOpen w path = inl e ->
     exists err, openFile inp w path offset = (None, None, false, Some err) /\
                 errors_Is err e = true) /\
  (forall fi0 d fi f0 f1 e,
     os_Stat w path = inr fi0 -> Mode_NamedPipe fi0 = false ->
     file_ReadOpen w path = inr d -> Stat_result d = inr fi ->
     Mode_IsRegular fi = true ->
     initFileOffset {| fd := d; position := 0; closed := false |}
       (if Size fi <? offset then 0 else offset) = (f0, None) ->
     inp_encodingFactory inp f0 = (f1, inl e) ->
     exists err,
       openFile inp w path offset = (None, None, Size fi <? offset, Some err) /\
       (errors_Is e transform_ErrShortSrc = false -> errors_Is err e = true) /\
       (errors_Is e transform_ErrShortSrc = true ->
          errors_Is err transform_ErrShortSrc = false)).
Proof.
  split; [|split].
  - intros e Hs. unfold openFile. rewrite Hs. eexists. split; [reflexivity|].
    apply errors_Is_Wrap, errors_Is_refl.
  - intros fi0 e Hs Hp Ho. unfold openFile. rewrite Hs, Hp, Ho.
    eexists. split; [reflexivity|]. apply errors_Is_Wrap, errors_Is_refl.
  - intros fi0 d fi f0 f1 e Hs Hp Ho Hf Hr Hseek Henc.
    unfold openFile. rewrite Hs, Hp, Ho. cbn [fd]. rewrite Hf.
    unfold checkFileBeforeOpening. rewrite Hr. cbn [negb].
    rewrite Hseek, Henc.
    destruct (errors_Is e transform_ErrShortSrc) eqn:Hshort.
    + eexists. split; [reflexivity|]. split; [discriminate|]. intros _. reflexivity.
    + eexists. split; [reflexivity|]. split; [|discriminate].
      intros _. apply errors_Is_Wrap, errors_Is_refl.
Qed.

(** X6.  [open] hands back a pipeline and no error, or an error and no pipeline;
    an error of [openFile] comes back as it is, with its truncation flag;
    and a pipeline exists only if every constructor succeeded. *)
Theorem open_result_shape (inp : filestream_t) (w : FileSystem) (k : Constructors)
    (canceler : Canceler) (fs : fileSource) (offset : Z) :
  ((exists rd tr, open inp w k canceler fs offset = (Some rd, tr, None)) \/
   (exists tr err, open inp w k canceler fs offset = (None, tr, Some err))) /\
  (forall tr err,
     openFile inp w (newPath fs) offset = (None, None, tr, Some err) ->
     open inp w k canceler fs offset = (None, tr, Some err)) /\
  (forall rd tr,
     open inp w k canceler fs offset = (Some rd, tr, None) ->
     newFileReader_error k = None /\ AppendReaders_error k = None /\
     NewEncodeReader_error k = None).
Proof.
  split; [|split].
  - apply open_cases.
  - intros tr err H. unfold open. rewrite H. reflexivity.
  - intros rd tr. unfold open.
    destruct (openFile inp w (newPath fs) offset) as [[[ofile oenc] t] e].
    destruct ofile; [|discriminate]. destruct oenc; [|discriminate].
    destruct e; [discriminate|].
    destruct (newFileReader_error k); [discriminate|].
    destruct (AppendReaders_error k); [discriminate|].
    destruct (NewEncodeReader_error k); [discriminate|].
    auto.
Qed.

(** X7.  [initFileOffset] never moves a file backwards: from any position it
    goes forward by the offset when the offset is positive and stays where it
    is otherwise; and a failed seek gives the error. *)
Theorem initFileOffset_forward (file : File) (offset : Z) :
  (Seek_error (fd file) = None ->
     exists file', initFileOffset file offset = (file', None) /\
                   position file' = position file + Z.max 0 offset /\
                   position file <= position file') /\
  (forall e, Seek_error (fd file) = Some e ->
     initFileOffset file offset = (file, Some e)).
Proof.
  unfold initFileOffset, File_Seek. split.
  - intros ->. destruct (0 <? offset) eqn:Hpos; eexists;
      (split; [reflexivity|]); cbn [position].
    + apply Z.ltb_lt in Hpos. lia.
    + apply Z.ltb_ge in Hpos. lia.
  - intros e ->. destruct (0 <? offset); reflexivity.
Qed.

(** X8.  [Test] never calls [Close] on a missing reader; it fails with the error
    of the open whenever a run from a new cursor would fail to open; and
    when it succeeds such a run opens the file, from offset 0. *)
Theorem Test_and_Run_open (inp : filestream_t) (w : FileSystem) (k : Constructors)
    (canceler : Canceler) (Reader_Close : Reader_t -> option error) (fs : fileSource) :
  Test inp w k canceler Reader_Close (IsFileSource fs) <> TestPanics /\
  (forall err,
     Run_open inp w k canceler fs AbsentCursor = inl err ->
     Test inp w k canceler Reader_Close (IsFileSource fs) = TestReturned (Some err)) /\
  (Test inp w k canceler Reader_Close (IsFileSource fs) = TestReturned None ->
     exists rd,
       Run_open inp w k canceler fs AbsentCursor = inr (Some rd, {| Offset := 0 |}) /\
       Reader_Close rd = None).
Proof.
  unfold Test, Run_open, initState. cbn [Cursor_IsNew orb Offset].
  destruct (open_cases inp w k canceler fs 0)
    as [(rd & tr & ->) | (tr & err & ->)].
  - split; [discriminate|]. split; [discriminate|].
    intros H. injection H as H. exists rd. split; [|exact H].
    destruct tr; reflexivity.
  - split; [discriminate|]. split; [|discriminate].
    intros err' H. injection H as <-. reflexivity.
Qed.

End MoreOpenProperties.

(** ** More on the filters *)

(** X9.  How the filters compose: matching against two lists of patterns is
    matching against either; with no pattern configured nothing is dropped;
    and a line dropped stays dropped when exclude patterns are added. *)
Theorem filters_compose (rc rc' : readerConfig) (text : string) :
  (forall a b : list Matcher, matchAny (a ++ b) text = matchAny a text || matchAny b text) /\
  (IncludeLines rc = [] -> ExcludeLines rc = [] -> isDroppedLine rc text = false) /\
  (IncludeLines rc' = IncludeLines rc ->
   (forall m, In m (ExcludeLines rc) -> In m (ExcludeLines rc')) ->
   isDroppedLine rc text = true -> isDroppedLine rc' text = true).
Proof.
  split; [|split].
  - intros a b. induction a as [|m a IH]; cbn [app matchAny orb].
    + reflexivity.
    + destruct (m text); [reflexivity | exact IH].
  - intros Hi He. unfold isDroppedLine. rewrite Hi, He. reflexivity.
  - intros Hinc Hsub. unfold isDroppedLine. rewrite Hinc.
    destruct ((0 <? Z.of_nat (length (IncludeLines rc)))
              && negb (matchAny (IncludeLines rc) text)); [reflexivity|].
    destruct ((0 <? Z.of_nat (length (ExcludeLines rc)))
              && matchAny (ExcludeLines rc) text) eqn:Hx; [|discriminate].
    intros _. apply andb_prop in Hx as [_ Hm].
    apply matchAny_true in Hm as (m & Hin & Hm).
    assert (Hm' : matchAny (ExcludeLines rc') text = true)
      by (apply matchAny_true; exists m; auto).
    rewrite Hm'.
    destruct (ExcludeLines rc') as [|x l]; [destruct (Hsub m Hin)|].
    reflexivity.
Qed.

Lemma filters_compose_witness :
  isDroppedLine (example_reader [contains "ERROR"] [contains "DEBUG"; contains "TRACE"] 1024)
    "ERROR DEBUG" = true.
Proof.
  apply (proj2 (proj2 (filters_compose
                         (example_reader [contains "ERROR"] [contains "DEBUG"] 1024)
                         (example_reader [contains "ERROR"]
                            [contains "DEBUG"; contains "TRACE"] 1024)
                         "ERROR DEBUG"))).
  - reflexivity.
  - intros m [<- | []]. left. reflexivity.
  - vm_compute. reflexivity.
Defined.

(** ** More on the read loop and on Run *)

Lemma count_truncated_at (message : reader.Message) (metrics : Metrics) (c : metric) :
  count_truncated message metrics c
  = metrics c + (if decide (c = MessagesTruncated)
                 then (if has_truncated_flag message then 1 else 0) else 0).
Proof.
  unfold count_truncated, has_truncated_flag.
  destruct (reader.Fields message !! "log.flags") as [[?|flags|?]|];
    try (destruct (decide _); lia).
  destruct (bool_decide ("truncated" ∈ flags)); metric_cases.
Qed.

Lemma Metric_Add_other (c c' : metric) (n : Z) (metrics : Metrics) :
  c <> c' -> Metric_Add c' n metrics c = metrics c.
Proof.
  intros H. unfold Metric_Add. destruct (decide (c = c')); [contradiction | reflexivity].
Qed.

Lemma Metric_Add_same (c : metric) (n : Z) (metrics : Metrics) :
  Metric_Add c n metrics c = metrics c + n.
Proof.
  unfold Metric_Add. destruct (decide (c = c)); [reflexivity | contradiction].
Qed.

Lemma count_truncated_other (message : reader.Message) (metrics : Metrics) (c : metric) :
  c <> MessagesTruncated -> count_truncated message metrics c = metrics c.
Proof.
  intros H. rewrite count_truncated_at.
  destruct (decide (c = MessagesTruncated)); [contradiction | lia].
Qed.

Section MoreLoopProperties.

Context {stateChangeCloserConfig Encoding parser_Config Canceler : Type}.
Variable IsEmpty : reader.Message -> bool.

Local Abbreviation filestream_t :=
  (filestream stateChangeCloserConfig Encoding parser_Config).

(** The loop leaves the life-cycle metrics alone. *)
Lemma for_loop_lifecycle (inp : filestream_t) (script : list step) (ls : loop_state)
    (c : metric) :
  lifecycle_metric c = true ->
  ls_metrics (snd (for_loop IsEmpty inp script ls)) c = ls_metrics ls c.
Proof.
  intros Hc.
  assert (Hr : c <> MessagesRead) by (intros ->; discriminate).
  assert (Ht : c <> MessagesTruncated) by (intros ->; discriminate).
  assert (Hb : c <> BytesProcessed) by (intros ->; discriminate).
  assert (Hv : c <> EventsProcessed) by (intros ->; discriminate).
  assert (Hp : c <> ProcessingErrors) by (intros ->; discriminate).
  revert ls. induction script as [|st script IH]; intros ls; cbn [for_loop].
  - reflexivity.
  - destruct st as [|e|message publish]; cbn [iteration].
    + reflexivity.
    + cbn [snd ls_metrics].
      destruct (errors_Is e ErrFileTruncate); [reflexivity|].
      destruct (errors_Is e ErrClosed); [reflexivity|].
      destruct (errors_Is e io_EOF); [reflexivity|].
      apply Metric_Add_other. exact Hp.
    + destruct (IsEmpty message || isDroppedLine _ _).
      * rewrite IH. cbn [ls_metrics]. unfold Metric_Inc.
        rewrite Metric_Add_other by exact Hr.
        apply count_truncated_other. exact Ht.
      * destruct publish as [e|]; [cbn [snd] | rewrite IH]; cbn [ls_metrics];
          unfold Metric_Inc.
        -- rewrite (Metric_Add_other _ _ _ _ Hp), (Metric_Add_other _ _ _ _ Hb),
             (Metric_Add_other _ _ _ _ Hr).
           apply count_truncated_other. exact Ht.
        -- rewrite (Metric_Add_other _ _ _ _ Hv), (Metric_Add_other _ _ _ _ Hb),
             (Metric_Add_other _ _ _ _ Hr).
           apply count_truncated_other. exact Ht.
Qed.



Lemma for_loop_processing_errors (inp : filestream_t) (script : list step) (ls : loop_state) :
  ls_metrics ls ProcessingErrors
    <= ls_metrics (snd (for_loop IsEmpty inp script ls)) ProcessingErrors
    <= ls_metrics ls ProcessingErrors + 1 /\
  (forall err, fst (for_loop IsEmpty inp script ls) = Returned (Some err) ->
     ls_metrics (snd (for_loop IsEmpty inp script ls)) ProcessingErrors
     = ls_metrics ls ProcessingErrors + 1).
Proof.
  revert ls. induction script as [|st script IH]; intros ls; cbn [for_loop].
  - cbn [fst snd]. split; [lia | discriminate].
  - destruct st as [|e|message publish]; cbn [iteration].
    + cbn [fst snd]. split; [lia | discriminate].
    + cbn [fst snd ls_metrics]. split; [|discriminate].
      destruct (errors_Is e ErrFileTruncate); [lia|].
      destruct (errors_Is e ErrClosed); [lia|].
      destruct (errors_Is e io_EOF); [lia|]. metric_cases.
    + destruct (IsEmpty message || isDroppedLine _ _).
      * match goal with
        | |- context [for_loop IsEmpty inp script ?l] => specialize (IH l)
        end.
        cbn [ls_metrics] in IH. unfold Metric_Inc, Metric_Add in IH.
        rewrite count_truncated_at in IH.
        repeat (destruct (decide _) in IH; try congruence).
        rewrite Z.add_0_r in IH. exact IH.
      * destruct publish as [e|].
        -- cbn [fst snd ls_metrics]. unfold Metric_Inc, Metric_Add.
           rewrite count_truncated_at.
           repeat (destruct (decide _); try congruence).
           split; [lia | intros; lia].
        -- match goal with
           | |- context [for_loop IsEmpty inp script ?l] => specialize (IH l)
           end.
           cbn [ls_metrics] in IH. unfold Metric_Inc, Metric_Add in IH.
           rewrite count_truncated_at in IH.
           repeat (destruct (decide _) in IH; try congruence).
           rewrite Z.add_0_r in IH. exact IH.
Qed.

(** X11.  A run counts at most one processing error, and a run that returns an
    error has counted exactly one. *)
Theorem processing_error_once (inp : filestream_t) (script : list step) (s : state)
    (metrics : Metrics) :
  metrics ProcessingErrors
    <= ls_metrics (snd (readFromSource IsEmpty inp script s metrics)) ProcessingErrors
    <= metrics ProcessingErrors + 1 /\
  (forall err,
     fst (readFromSource IsEmpty inp script s metrics) = Returned (Some err) ->
     ls_metrics (snd (readFromSource IsEmpty inp script s metrics)) ProcessingErrors
     = metrics ProcessingErrors + 1).
Proof.
  rewrite readFromSource_for_loop.
  pose proof (for_loop_processing_errors inp script (loop_start s metrics)) as [Hb He].
  assert (H0 : ls_metrics (loop_start s metrics) ProcessingErrors = metrics ProcessingErrors)
    by (cbn [loop_start ls_metrics]; metric_cases).
  rewrite H0 in Hb, He.
  destruct (for_loop IsEmpty inp script (loop_start s metrics)) as [[e|] ls'];
    cbn [fst snd ls_metrics] in *.
  - rewrite readFromSource_deferred_other by discriminate.
    split; [exact Hb|]. intros err H. apply (He err). exact H.
  - split; [exact Hb | discriminate].
Qed.

Lemma for_loop_published_events (inp : filestream_t) (script : list step) (ls : loop_state) :
  exists n,
    (fst (for_loop IsEmpty inp script ls) = Pending -> n = length (messages_of script)) /\
    map fst (ls_published (snd (for_loop IsEmpty inp script ls)))
    = map fst (ls_published ls)
        ++ map (published_event inp) (kept IsEmpty inp (take n (messages_of script))).
Proof.
  revert ls. induction script as [|st script IH]; intros ls; cbn [for_loop].
  - exists O. split; [reflexivity|]. cbn. rewrite app_nil_r. reflexivity.
  - destruct st as [|e|message publish]; cbn [iteration].
    + exists O. split; [discriminate|]. cbn. rewrite app_nil_r. reflexivity.
    + exists O. split; [discriminate|]. cbn. rewrite app_nil_r. reflexivity.
    + change (messages_of (NextMessage message publish :: script))
        with (message :: messages_of script).
      fold (dropped IsEmpty inp message).
      destruct (dropped IsEmpty inp message) eqn:Hdrop.
      * match goal with
        | |- context [for_loop IsEmpty inp script ?l] => destruct (IH l) as (n & Hn & Heq)
        end.
        exists (S n). split; [intros H; cbn [length]; f_equal; auto|].
        rewrite Heq. cbn [ls_published take]. unfold kept. cbn [List.filter].
        rewrite Hdrop. reflexivity.
      * destruct publish as [e|].
        -- exists 1%nat. split; [discriminate|].
           cbn [snd ls_published take]. unfold kept. cbn [List.filter].
           rewrite Hdrop. cbn [negb map]. rewrite map_app. reflexivity.
        -- match goal with
           | |- context [for_loop IsEmpty inp script ?l] => destruct (IH l) as (n & Hn & Heq)
           end.
           exists (S n). split; [intros H; cbn [length]; f_equal; auto|].
           rewrite Heq. cbn [ls_published take]. unfold kept. cbn [List.filter].
           rewrite Hdrop. cbn [negb map]. rewrite map_app, <- app_assoc. reflexivity.
Qed.

(** X12.  The publisher is handed the messages that are not dropped, each once
    and in the order they were read, and nothing else: the events of a run
    are those of the kept messages among the first so many read, and among
    all of them while the run goes on. *)
Theorem published_events_are_kept (inp : filestream_t) (script : list step) (s : state)
    (metrics : Metrics) :
  (exists n,
     map fst (ls_published (snd (readFromSource IsEmpty inp script s metrics)))
     = map (published_event inp) (kept IsEmpty inp (take n (messages_of script)))) /\
  (fst (readFromSource IsEmpty inp script s metrics) = Pending ->
     map fst (ls_published (snd (readFromSource IsEmpty inp script s metrics)))
     = map (published_event inp) (kept IsEmpty inp (messages_of script))).
Proof.
  rewrite readFromSource_for_loop.
  destruct (for_loop_published_events inp script (loop_start s metrics)) as (n & Hn & Heq).
  cbn [loop_start ls_published map app] in Heq.
  destruct (for_loop IsEmpty inp script (loop_start s metrics)) as [[e|] ls'];
    cbn [fst snd ls_published] in *.
  - split; [exists n; exact Heq | discriminate].
  - split; [exists n; exact Heq|].
    intros _. rewrite Heq, (Hn eq_refl), firstn_all. reflexivity.
Qed.

(** X13.  A cancelled context ends the loop before anything more is read: the
    function returns [nil], and the state, the calls to the publisher and
    the counters of the loop are as the turns before left them. *)
Theorem cancellation_ends_loop (inp : filestream_t) (pre rest : list step) (s : state)
    (metrics : Metrics) (c : metric) :
  fst (readFromSource IsEmpty inp pre s metrics) = Pending ->
  lifecycle_metric c = false ->
  fst (readFromSource IsEmpty inp (pre ++ Cancelled :: rest) s metrics) = Returned None /\
  ls_state (snd (readFromSource IsEmpty inp (pre ++ Cancelled :: rest) s metrics))
  = ls_state (snd (readFromSource IsEmpty inp pre s metrics)) /\
  ls_published (snd (readFromSource IsEmpty inp (pre ++ Cancelled :: rest) s metrics))
  = ls_published (snd (readFromSource IsEmpty inp pre s metrics)) /\
  ls_metrics (snd (readFromSource IsEmpty inp (pre ++ Cancelled :: rest) s metrics)) c
  = ls_metrics (snd (readFromSource IsEmpty inp pre s metrics)) c.
Proof.
  intros Hp Hc.
  rewrite (readFromSource_app _ _ _ _ _ _ Hp). cbn [for_loop iteration fst snd].
  cbn [ls_state ls_published ls_metrics].
  repeat split.
  apply readFromSource_deferred_other; intros ->; discriminate.
Qed.

(** X14.  A truncation, a closed reader and the end of the stream - bare or
    wrapped in another error - end the loop with [nil] and are not counted as
    processing errors. *)
Theorem terminal_signal_not_counted (inp : filestream_t) (pre rest : list step)
    (err : error) (s : state) (metrics : Metrics) :
  fst (readFromSource IsEmpty inp pre s metrics) = Pending ->
  is_terminal_signal err = true ->
  (forall msg, is_terminal_signal (Wrap msg err) = true) /\
  fst (readFromSource IsEmpty inp (pre ++ NextError err :: rest) s metrics) = Returned None /\
  ls_metrics (snd (readFromSource IsEmpty inp (pre ++ NextError err :: rest) s metrics))
    ProcessingErrors
  = ls_metrics (snd (readFromSource IsEmpty inp pre s metrics)) ProcessingErrors /\
  ls_published (snd (readFromSource IsEmpty inp (pre ++ NextError err :: rest) s metrics))
  = ls_published (snd (readFromSource IsEmpty inp pre s metrics)).
Proof.
  intros Hp Hterm. split.
  - intros msg. unfold is_terminal_signal in *.
    apply orb_true_iff in Hterm as [Hterm | H3].
    + apply orb_true_iff in Hterm as [H1 | H2].
      * rewrite (errors_Is_Wrap _ _ _ H1). reflexivity.
      * rewrite (errors_Is_Wrap _ _ _ H2). rewrite orb_true_r. reflexivity.
    + rewrite (errors_Is_Wrap _ _ _ H3). rewrite orb_true_r. reflexivity.
  - rewrite (readFromSource_app _ _ _ _ _ _ Hp). cbn [for_loop iteration fst snd].
    cbn [ls_published ls_metrics].
    split; [reflexivity|]. split; [|reflexivity].
    rewrite readFromSource_deferred_other by discriminate.
    unfold is_terminal_signal in Hterm.
    destruct (errors_Is err ErrFileTruncate); [reflexivity|].
    destruct (errors_Is err ErrClosed); [reflexivity|].
    destruct (errors_Is err io_EOF); [reflexivity | discriminate].
Qed.

(** X15.  The gauges of a run balance: once [Run] has returned - with or without
    an error, by whatever way out - the active files, the running harvesters
    and the open files are back where they were, and as many files and
    harvesters were closed as were opened; while the loop goes on each of
    them is one higher. *)
Theorem Run_gauges_balance (inp : filestream_t) (w : FileSystem) (k : Constructors)
    (canceler : Canceler) (src : loginp_Source) (cursor : loginp_Cursor)
    (script : list step) (metrics : Metrics) :
  (forall err,
     fst (Run IsEmpty inp w k canceler src cursor script metrics) = Returned err ->
     ls_metrics (snd (Run IsEmpty inp w k canceler src cursor script metrics)) FilesActive
       = metrics FilesActive /\
     ls_metrics (snd (Run IsEmpty inp w k canceler src cursor script metrics)) HarvesterRunning
       = metrics HarvesterRunning /\
     ls_metrics (snd (Run IsEmpty inp w k canceler src cursor script metrics))
       HarvesterOpenFiles = metrics HarvesterOpenFiles /\
     ls_metrics (snd (Run IsEmpty inp w k canceler src cursor script metrics)) FilesOpened
       - metrics FilesOpened
     = ls_metrics (snd (Run IsEmpty inp w k canceler src cursor script metrics)) FilesClosed
       - metrics FilesClosed /\
     ls_metrics (snd (Run IsEmpty inp w k canceler src cursor script metrics)) HarvesterStarted
       - metrics HarvesterStarted
     = ls_metrics (snd (Run IsEmpty inp w k canceler src cursor script metrics)) HarvesterClosed
       - metrics HarvesterClosed) /\
  (fst (Run IsEmpty inp w k canceler src cursor script metrics) = Pending ->
     ls_metrics (snd (Run IsEmpty inp w k canceler src cursor script metrics)) FilesActive
       = metrics FilesActive + 1 /\
     ls_metrics (snd (Run IsEmpty inp w k canceler src cursor script metrics)) HarvesterRunning
       = metrics HarvesterRunning + 1 /\
     ls_metrics (snd (Run IsEmpty inp w k canceler src cursor script metrics))
       HarvesterOpenFiles = metrics HarvesterOpenFiles + 1 /\
     ls_metrics (snd (Run IsEmpty inp w k canceler src cursor script metrics)) FilesClosed
       = metrics FilesClosed /\
     ls_metrics (snd (Run IsEmpty inp w k canceler src cursor script metrics)) HarvesterClosed
       = metrics HarvesterClosed).
Proof.
  unfold Run.
  destruct src as [fs|name]; [|cbn [fst snd ls_metrics]; split; [intros; lia | discriminate]].
  destruct (Run_open inp w k canceler fs cursor) as [e|[r st]];
    [cbn [fst snd ls_metrics]; split; [intros; lia | discriminate]|].
  rewrite readFromSource_for_loop.
  pose proof (fun c H => for_loop_lifecycle inp script
                (loop_start st (Metric_Inc HarvesterRunning (Metric_Inc FilesActive metrics)))
                c H) as Hlife.
  destruct (for_loop IsEmpty inp script _) as [[e|] ls'];
    cbn [fst snd ls_metrics loop_start] in *.
  - split; [|discriminate]. intros err' _.
    pose proof (Hlife FilesActive eq_refl) as H1.
    pose proof (Hlife HarvesterRunning eq_refl) as H2.
    pose proof (Hlife HarvesterOpenFiles eq_refl) as H3.
    pose proof (Hlife FilesOpened eq_refl) as H4.
    pose proof (Hlife FilesClosed eq_refl) as H5.
    pose proof (Hlife HarvesterStarted eq_refl) as H6.
    pose proof (Hlife HarvesterClosed eq_refl) as H7.
    clear Hlife. revert H1 H2 H3 H4 H5 H6 H7.
    unfold readFromSource_deferred, Run_deferred, Metric_Inc, Metric_Dec.
    repeat first [ rewrite Metric_Add_same | rewrite Metric_Add_other by discriminate ].
    intros. repeat split; lia.
  - split; [discriminate|]. intros _.
    pose proof (Hlife FilesActive eq_refl) as H1.
    pose proof (Hlife HarvesterRunning eq_refl) as H2.
    pose proof (Hlife HarvesterOpenFiles eq_refl) as H3.
    pose proof (Hlife FilesClosed eq_refl) as H5.
    pose proof (Hlife HarvesterClosed eq_refl) as H7.
    clear Hlife. revert H1 H2 H3 H5 H7.
    unfold Metric_Inc, Metric_Dec.
    repeat first [ rewrite Metric_Add_same | rewrite Metric_Add_other by discriminate ].
    intros. repeat split; lia.
Qed.

(** X16.  An error [Run] returns has one of three origins: the source is no file
    source; the open failed, and then nothing was published and no metric
    was touched; or the publisher refused a record that was not dropped. *)
Theorem Run_error_origin (inp : filestream_t) (w : FileSystem) (k : Constructors)
    (canceler : Canceler) (src : loginp_Source) (cursor : loginp_Cursor)
    (script : list step) (metrics : Metrics) (err : error) :
  fst (Run IsEmpty inp w k canceler src cursor script metrics) = Returned (Some err) ->
  (exists name, src = NotFileSource name) \/
  (exists fs, src = IsFileSource fs /\
     Run_open inp w k canceler fs cursor = inl err /\
     ls_published (snd (Run IsEmpty inp w k canceler src cursor script metrics)) = [] /\
     forall c, ls_metrics (snd (Run IsEmpty inp w k canceler src cursor script metrics)) c
               = metrics c) \/
  (exists pre message rest,
     script = pre ++ NextMessage message (Some err) :: rest /\
     dropped IsEmpty inp message = false).
Proof.
  unfold Run.
  destruct src as [fs|name]; [|intros _; left; eauto].
  destruct (Run_open inp w k canceler fs cursor) as [e|[r st]] eqn:Hopen.
  - cbn [fst snd ls_published ls_metrics]. intros H. injection H as ->.
    right. left. exists fs. auto.
  - rewrite readFromSource_for_loop.
    destruct (for_loop IsEmpty inp script _) as [[e|] ls'] eqn:Hloop;
      cbn [fst]; [|discriminate].
    intros H. injection H as ->.
    destruct (for_loop_returned _ _ _ _ _ _ Hloop) as (pre & st' & rest & ls1 & -> & _ & Hst).
    destruct (iteration_returns_error _ _ _ _ _ _ Hst) as (message & -> & Hdrop).
    right. right. exists pre, message, rest. auto.
Qed.

Lemma open_truncated_as_zero (inp : filestream_t) (w : FileSystem) (k : Constructors)
    (canceler : Canceler) (fs : fileSource) (offset : Z) (d : Handle) (fi : FileInfo) :
  file_ReadOpen w (newPath fs) = inr d ->
  Stat_result d = inr fi ->
  Size fi < offset ->
  fst (fst (open inp w k canceler fs offset)) = fst (fst (open inp w k canceler fs 0)) /\
  snd (open inp w k canceler fs offset) = snd (open inp w k canceler fs 0).
Proof.
  intros Ho Hf Hlt. unfold open, openFile. rewrite Ho.
  destruct (os_Stat w (newPath fs)) as [e|fi0]; [split; reflexivity|].
  destruct (Mode_NamedPipe fi0); [split; reflexivity|].
  cbn [fd]. rewrite Hf.
  destruct (checkFileBeforeOpening fi); [split; reflexivity|].
  assert (Ht : (Size fi <? offset) = true) by (apply Z.ltb_lt; exact Hlt).
  rewrite Ht.
  assert (H0 : (if Size fi <? 0 then 0 else 0) = 0) by (destruct (Size fi <? 0); reflexivity).
  rewrite H0.
  destruct (initFileOffset _ 0) as [f0 [e|]]; [split; reflexivity|].
  destruct (inp_encodingFactory inp f0) as [f1 [e|enc]].
  - destruct (errors_Is e transform_ErrShortSrc); split; reflexivity.
  - rewrite H0.
    destruct (newFileReader_error k); [split; reflexivity|].
    destruct (AppendReaders_error k); [split; reflexivity|].
    destruct (NewEncodeReader_error k); split; reflexivity.
Qed.

(** X17.  A run resumed past the end of a file that shrank behaves as a run from
    a new cursor: the same pipeline or the same error from the open, the
    same result, the same records published with the same offsets, and the
    same metrics. *)
Theorem Run_truncated_as_fresh (inp : filestream_t) (w : FileSystem) (k : Constructors)
    (canceler : Canceler) (fs : fileSource) (O : Z) (d : Handle) (fi : FileInfo)
    (script : list step) (metrics : Metrics) :
  file_ReadOpen w (newPath fs) = inr d ->
  Stat_result d = inr fi ->
  Size fi < O ->
  Run_open inp w k canceler fs (stored O) = Run_open inp w k canceler fs AbsentCursor /\
  fst (Run IsEmpty inp w k canceler (IsFileSource fs) (stored O) script metrics)
  = fst (Run IsEmpty inp w k canceler (IsFileSource fs) AbsentCursor script metrics) /\
  ls_published (snd (Run IsEmpty inp w k canceler (IsFileSource fs) (stored O) script metrics))
  = ls_published (snd (Run IsEmpty inp w k canceler (IsFileSource fs) AbsentCursor
                         script metrics)) /\
  ls_metrics (snd (Run IsEmpty inp w k canceler (IsFileSource fs) (stored O) script metrics))
  = ls_metrics (snd (Run IsEmpty inp w k canceler (IsFileSource fs) AbsentCursor
                       script metrics)).
Proof.
  intros Ho Hf Hlt.
  assert (Hopen : Run_open inp w k canceler fs (stored O)
                  = Run_open inp w k canceler fs AbsentCursor).
  { unfold Run_open, initState, stored.
    cbn [Cursor_IsNew Cursor_Unpack orb fst Offset].
    destruct (truncated fs); [reflexivity|]. cbn [Offset].
    destruct (open_truncated_as_zero inp w k canceler fs O d fi Ho Hf Hlt) as [Hr He].
    assert (Htr : snd (fst (open inp w k canceler fs O)) = true \/
                  exists e, snd (open inp w k canceler fs O) = Some e).
    { unfold open, openFile. rewrite Ho.
      destruct (os_Stat w (newPath fs)) as [e|fi0]; [right; eauto|].
      destruct (Mode_NamedPipe fi0); [right; eauto|].
      cbn [fd]. rewrite Hf.
      destruct (checkFileBeforeOpening fi); [right; eauto|].
      assert (Ht : (Size fi <? O) = true) by (apply Z.ltb_lt; exact Hlt).
      rewrite Ht.
      destruct (initFileOffset _ 0) as [f0 [e|]]; [right; eauto|].
      destruct (inp_encodingFactory inp f0) as [f1 [e|enc]];
        [destruct (errors_Is e transform_ErrShortSrc); right; eauto|].
      destruct (newFileReader_error k); [right; eauto|].
      destruct (AppendReaders_error k); [right; eauto|].
      destruct (NewEncodeReader_error k); [right; eauto|].
      left. reflexivity. }
    destruct (open inp w k canceler fs O) as [[r tr] e];
      destruct (open inp w k canceler fs 0) as [[r0 tr0] e0].
    cbn [fst snd] in *. subst r0 e0.
    destruct e as [e|]; [reflexivity|].
    destruct Htr as [-> | [e He]]; [|discriminate].
    destruct tr0; reflexivity. }
  split; [exact Hopen|].
  unfold Run. rewrite Hopen.
  destruct (Run_open inp w k canceler fs AbsentCursor) as [e|[r st]];
    repeat split; reflexivity.
Qed.

End MoreLoopProperties.

(** ** The CloudWatch input *)

Lemma neq_true (a b : string) : awscloudwatch.neq a b = true <-> a <> b.
Proof.
  unfold awscloudwatch.neq. destruct (String.eqb_spec a b); cbn [negb]; split;
    congruence.
Qed.

Lemma neq_false (a b : string) : awscloudwatch.neq a b = false <-> a = b.
Proof.
  unfold awscloudwatch.neq. destruct (String.eqb_spec a b); cbn [negb]; split;
    congruence.
Qed.

(** X18.  [Validate] accepts a configuration exactly when the start position is
    one of the three known ones, some log group is named (by ARN, by name or
    by prefix), name and prefix are not both given, and a region comes with
    a name or a prefix. *)
Theorem Validate_accepts_iff (c : awscloudwatch.config) :
  awscloudwatch.Validate c = None <->
  (awscloudwatch.StartPosition c = awscloudwatch.beginning \/
   awscloudwatch.StartPosition c = awscloudwatch.end_ \/
   awscloudwatch.StartPosition c = awscloudwatch.lastSync) /\
  (awscloudwatch.LogGroupARN c <> "" \/ awscloudwatch.LogGroupName c <> "" \/
   awscloudwatch.LogGroupNamePrefix c <> "") /\
  (awscloudwatch.LogGroupName c = "" \/ awscloudwatch.LogGroupNamePrefix c = "") /\
  ((awscloudwatch.LogGroupName c = "" /\ awscloudwatch.LogGroupNamePrefix c = "") \/
   awscloudwatch.RegionName c <> "").
Proof.
  unfold awscloudwatch.Validate.
  destruct (awscloudwatch.neq (awscloudwatch.StartPosition c) awscloudwatch.beginning
            && awscloudwatch.neq (awscloudwatch.StartPosition c) awscloudwatch.end_
            && awscloudwatch.neq (awscloudwatch.StartPosition c) awscloudwatch.lastSync)
    eqn:H1.
  { split; [discriminate|]. intros (Hs & _).
    apply andb_prop in H1 as [H1 Hc]. apply andb_prop in H1 as [Ha Hb].
    apply neq_true in Ha. apply neq_true in Hb. apply neq_true in Hc. tauto. }
  assert (Hs : awscloudwatch.StartPosition c = awscloudwatch.beginning \/
               awscloudwatch.StartPosition c = awscloudwatch.end_ \/
               awscloudwatch.StartPosition c = awscloudwatch.lastSync).
  { apply andb_false_iff in H1 as [H1 | H1];
      [apply andb_false_iff in H1 as [H1 | H1]|]; apply neq_false in H1; tauto. }
  destruct (String.eqb (awscloudwatch.LogGroupARN c) ""
            && String.eqb (awscloudwatch.LogGroupName c) ""
            && String.eqb (awscloudwatch.LogGroupNamePrefix c) "") eqn:H2.
  { split; [discriminate|]. intros (_ & Hg & _).
    apply andb_prop in H2 as [H2 Hc]. apply andb_prop in H2 as [Ha Hb].
    apply String.eqb_eq in Ha. apply String.eqb_eq in Hb. apply String.eqb_eq in Hc.
    tauto. }
  assert (Hg : awscloudwatch.LogGroupARN c <> "" \/ awscloudwatch.LogGroupName c <> "" \/
               awscloudwatch.LogGroupNamePrefix c <> "").
  { apply andb_false_iff in H2 as [H2 | H2];
      [apply andb_false_iff in H2 as [H2 | H2]|]; apply String.eqb_neq in H2; tauto. }
  destruct (awscloudwatch.neq (awscloudwatch.LogGroupName c) ""
            && awscloudwatch.neq (awscloudwatch.LogGroupNamePrefix c) "") eqn:H3.
  { split; [discriminate|]. intros (_ & _ & Hn & _).
    apply andb_prop in H3 as [Ha Hb]. apply neq_true in Ha. apply neq_true in Hb. tauto. }
  assert (Hn : awscloudwatch.LogGroupName c = "" \/ awscloudwatch.LogGroupNamePrefix c = "").
  { apply andb_false_iff in H3 as [H3 | H3]; apply neq_false in H3; tauto. }
  destruct ((awscloudwatch.neq (awscloudwatch.LogGroupName c) ""
             || awscloudwatch.neq (awscloudwatch.LogGroupNamePrefix c) "")
            && String.eqb (awscloudwatch.RegionName c) "") eqn:H4.
  { split; [discriminate|]. intros (_ & _ & _ & Hr).
    apply andb_prop in H4 as [H4 Hc]. apply String.eqb_eq in Hc.
    apply orb_prop in H4 as [H4 | H4]; apply neq_true in H4; tauto. }
  split; [intros _ | reflexivity].
  split; [exact Hs|]. split; [exact Hg|]. split; [exact Hn|].
  apply andb_false_iff in H4 as [H4 | H4].
  - apply orb_false_elim in H4 as [Ha Hb].
    apply neq_false in Ha. apply neq_false in Hb. left. split; assumption.
  - apply String.eqb_neq in H4. right. exact H4.
Qed.

(** X19.  A log group given by its ARN alone is enough, without a region: with a
    known start position and neither name nor prefix, a configuration is
    accepted exactly when its ARN is not empty.  So the default
    configuration, which names no log group, is rejected as it stands. *)
Theorem Validate_arn_alone (c : awscloudwatch.config) :
  awscloudwatch.StartPosition c = awscloudwatch.StartPosition awscloudwatch.defaultConfig ->
  awscloudwatch.LogGroupName c = "" ->
  awscloudwatch.LogGroupNamePrefix c = "" ->
  (awscloudwatch.Validate c = None <-> awscloudwatch.LogGroupARN c <> "") /\
  awscloudwatch.Validate awscloudwatch.defaultConfig <> None.
Proof.
  intros Hs Hn Hp. split; [|discriminate].
  unfold awscloudwatch.Validate, awscloudwatch.neq. rewrite Hs, Hn, Hp.
  cbn [awscloudwatch.StartPosition awscloudwatch.defaultConfig].
  destruct (String.eqb_spec (awscloudwatch.LogGroupARN c) ""); cbn; split;
    congruence.
Qed.

Lemma createEvent_complete (now : Z) (e : awscloudwatch.FilteredLogEvent)
    (logGroupId regionName : string) :
  awscloudwatch.complete e = true ->
  exists ev,
    awscloudwatch.createEvent now e logGroupId regionName = Some ev /\
    Some (awscloudwatch.Event_Timestamp ev) = awscloudwatch.Timestamp e /\
    awscloudwatch.lookup_path ["message"] (awscloudwatch.Event_Fields ev)
      = awscloudwatch.FString <$> awscloudwatch.Message e /\
    awscloudwatch.lookup_path ["event"; "id"] (awscloudwatch.Event_Fields ev)
      = awscloudwatch.FString <$> awscloudwatch.EventId e /\
    awscloudwatch.lookup_path ["log"; "file"; "path"] (awscloudwatch.Event_Fields ev)
      = (fun stream => awscloudwatch.FString (logGroupId +:+ "/" +:+ stream))
          <$> awscloudwatch.LogStreamName e /\
    awscloudwatch.lookup_path ["cloud"; "region"] (awscloudwatch.Event_Fields ev)
      = Some (awscloudwatch.FString regionName).
Proof.
  unfold awscloudwatch.complete, awscloudwatch.createEvent.
  destruct (awscloudwatch.Timestamp e); [|discriminate].
  destruct (awscloudwatch.Message e); [|discriminate].
  destruct (awscloudwatch.LogStreamName e); [|discriminate].
  destruct (awscloudwatch.EventId e); [|discriminate].
  destruct (awscloudwatch.IngestionTime e); [|discriminate].
  intros _. eexists. split; [reflexivity|]. repeat split.
Qed.

Lemma createEvent_incomplete (now : Z) (e : awscloudwatch.FilteredLogEvent)
    (logGroupId regionName : string) :
  awscloudwatch.complete e = false ->
  awscloudwatch.createEvent now e logGroupId regionName = None.
Proof.
  unfold awscloudwatch.complete, awscloudwatch.createEvent.
  destruct (awscloudwatch.Timestamp e); [|reflexivity].
  destruct (awscloudwatch.Message e); [|reflexivity].
  destruct (awscloudwatch.LogStreamName e); [|reflexivity].
  destruct (awscloudwatch.EventId e); [|reflexivity].
  destruct (awscloudwatch.IngestionTime e); [discriminate | reflexivity].
Qed.

(** What [processLogEvents] does with a run of complete log events before
    whatever follows them. *)
Lemma processLogEvents_app (now : nat -> Z) (pre rest : list awscloudwatch.FilteredLogEvent)
    (logGroupId regionName : string) (p : awscloudwatch.processor_state) :
  Forall (fun e => awscloudwatch.complete e = true) pre ->
  exists created,
    awscloudwatch.processLogEvents now (pre ++ rest) logGroupId regionName p
    = awscloudwatch.processLogEvents now rest logGroupId regionName
        {| awscloudwatch.cloudwatchEventsCreatedTotal :=
             awscloudwatch.cloudwatchEventsCreatedTotal p + Z.of_nat (length pre);
           awscloudwatch.published := awscloudwatch.published p ++ created;
           awscloudwatch.clock_readings := (awscloudwatch.clock_readings p + length pre)%nat |} /\
    Forall2 (fun e ev =>
               awscloudwatch.lookup_path ["event"; "id"] (awscloudwatch.Event_Fields ev)
                 = awscloudwatch.FString <$> awscloudwatch.EventId e /\
               awscloudwatch.lookup_path ["message"] (awscloudwatch.Event_Fields ev)
                 = awscloudwatch.FString <$> awscloudwatch.Message e /\
               awscloudwatch.lookup_path ["log"; "file"; "path"]
                 (awscloudwatch.Event_Fields ev)
                 = (fun stream => awscloudwatch.FString (logGroupId +:+ "/" +:+ stream))
                     <$> awscloudwatch.LogStreamName e)
            pre created.
Proof.
  intros Hall. revert p. induction Hall as [|e pre He _ IH]; intros p.
  - exists []. split; [|constructor]. cbn [app length Z.of_nat].
    rewrite Z.add_0_r, app_nil_r, Nat.add_0_r. destruct p; reflexivity.
  - cbn [app awscloudwatch.processLogEvents].
    destruct (createEvent_complete (now (awscloudwatch.clock_readings p)) e
                logGroupId regionName He) as (ev & -> & _ & Hm & Hid & Hpath & _).
    destruct (IH {| awscloudwatch.cloudwatchEventsCreatedTotal :=
                      awscloudwatch.cloudwatchEventsCreatedTotal p + 1;
                    awscloudwatch.published := awscloudwatch.published p ++ [ev];
                    awscloudwatch.clock_readings := S (awscloudwatch.clock_readings p) |})
      as (created & -> & Hrel).
    exists (ev :: created). split.
    + cbn [awscloudwatch.cloudwatchEventsCreatedTotal awscloudwatch.published
             awscloudwatch.clock_readings length].
      rewrite <- app_assoc. cbn [app]. do 2 f_equal; lia.
    + constructor; auto.
Qed.

(** X20.  [processLogEvents] on log events none of whose fields is nil hands the
    publisher one event per log event, in their order, each carrying the
    identifier, the message and the path (log group, a slash, log stream) of
    its log event, and counts as many created events. *)
Theorem processLogEvents_complete (now : nat -> Z)
    (logEvents : list awscloudwatch.FilteredLogEvent) (logGroupId regionName : string)
    (p : awscloudwatch.processor_state) :
  Forall (fun e => awscloudwatch.complete e = true) logEvents ->
  exists created,
    awscloudwatch.processLogEvents now logEvents logGroupId regionName p
    = ({| awscloudwatch.cloudwatchEventsCreatedTotal :=
            awscloudwatch.cloudwatchEventsCreatedTotal p + Z.of_nat (length logEvents);
          awscloudwatch.published := awscloudwatch.published p ++ created;
          awscloudwatch.clock_readings :=
            (awscloudwatch.clock_readings p + length logEvents)%nat |}, true) /\
    Forall2 (fun e ev =>
               awscloudwatch.lookup_path ["event"; "id"] (awscloudwatch.Event_Fields ev)
                 = awscloudwatch.FString <$> awscloudwatch.EventId e /\
               awscloudwatch.lookup_path ["message"] (awscloudwatch.Event_Fields ev)
                 = awscloudwatch.FString <$> awscloudwatch.Message e /\
               awscloudwatch.lookup_path ["log"; "file"; "path"]
                 (awscloudwatch.Event_Fields ev)
                 = (fun stream => awscloudwatch.FString (logGroupId +:+ "/" +:+ stream))
                     <$> awscloudwatch.LogStreamName e)
            logEvents created.
Proof.
  intros Hall.
  destruct (processLogEvents_app now logEvents [] logGroupId regionName p Hall)
    as (created & Heq & Hrel).
  rewrite app_nil_r in Heq. exists created. split; [exact Heq | exact Hrel].
Qed.

(** X21.  A log event with a nil field stops [processLogEvents] by a panic: the
    complete events before it have been published and counted, and neither it
    nor any event after it is. *)
Theorem processLogEvents_stops (now : nat -> Z)
    (pre rest : list awscloudwatch.FilteredLogEvent) (e : awscloudwatch.FilteredLogEvent)
    (logGroupId regionName : string) (p : awscloudwatch.processor_state) :
  Forall (fun e => awscloudwatch.complete e = true) pre ->
  awscloudwatch.complete e = false ->
  exists created,
    awscloudwatch.processLogEvents now (pre ++ e :: rest) logGroupId regionName p
    = ({| awscloudwatch.cloudwatchEventsCreatedTotal :=
            awscloudwatch.cloudwatchEventsCreatedTotal p + Z.of_nat (length pre);
          awscloudwatch.published := awscloudwatch.published p ++ created;
          awscloudwatch.clock_readings :=
            (awscloudwatch.clock_readings p + length pre)%nat |}, false) /\
    length created = length pre.
Proof.
  intros Hall He.
  destruct (processLogEvents_app now pre (e :: rest) logGroupId regionName p Hall)
    as (created & Heq & Hrel).
  exists created. split.
  - rewrite Heq. cbn [awscloudwatch.processLogEvents awscloudwatch.clock_readings].
    rewrite (createEvent_incomplete _ _ _ _ He). reflexivity.
  - symmetry. eapply Forall2_length. exact Hrel.
Qed.

(** ** The further properties on concrete inputs *)

Lemma openFile_named_pipe_witness :
  exists err, openFile default_input pipe_world "/run/agent.fifo" 0
              = (None, None, false, Some err).
Proof.
  apply (proj1 (openFile_named_pipe default_input pipe_world pipe_world "/run/agent.fifo" 0
                  {| Mode_NamedPipe := true; Mode_IsRegular := false;
                     Size := 0; Name := "fifo" |} eq_refl eq_refl eq_refl)).
Defined.

Lemma openFile_non_regular_witness :
  exists err,
    openFile default_input raced_world "/var/log/app.log" 5000
      = (None, None, false, Some err) /\
    open default_input raced_world no_failure tt (example_source 100 false) 5000
      = (None, false, Some err).
Proof.
  apply (openFile_non_regular (Canceler := unit) default_input raced_world no_failure tt
           (example_source 100 false) 5000 (example_info 100)
           {| Mode_NamedPipe := false; Mode_IsRegular := false;
              Size := 4096; Name := "app.log" |}
           {| Stat_result := inr {| Mode_NamedPipe := false; Mode_IsRegular := false;
                                    Size := 4096; Name := "app.log" |};
              Seek_error := None |});
    reflexivity.
Defined.

Lemma openFile_result_shape_witness :
  exists d fi,
    file_ReadOpen (example_world 12) "/var/log/app.log" = inr d /\
    Stat_result d = inr fi /\ Mode_IsRegular fi = true.
Proof.
  eapply (proj2 (openFile_result_shape default_input (example_world 12)
                   "/var/log/app.log" 6)).
  vm_compute. reflexivity.
Defined.

Lemma openFile_truncated_sound_witness :
  exists d fi,
    file_ReadOpen (example_world 5) "/var/log/app.log" = inr d /\
    Stat_result d = inr fi /\ Mode_IsRegular fi = true /\ Size fi < 12.
Proof.
  eapply (openFile_truncated_sound default_input (example_world 5) "/var/log/app.log" 12).
  vm_compute. reflexivity.
Defined.

Lemma openFile_error_cause_witness :
  (exists err,
     openFile default_input missing_world "/var/log/app.log" 0
       = (None, None, false, Some err) /\
     errors_Is err (ErrOther "no such file or directory") = true) /\
  (exists err,
     openFile short_source_input (example_world 1) "/var/log/app.log" 0
       = (None, None, false, Some err) /\
     errors_Is err transform_ErrShortSrc = false).
Proof.
  split.
  - apply (proj1 (openFile_error_cause default_input missing_world "/var/log/app.log" 0)).
    reflexivity.
  - edestruct (proj2 (proj2 (openFile_error_cause short_source_input (example_world 1)
                               "/var/log/app.log" 0)))
      as (err & Herr & _ & Hshort);
      [reflexivity | reflexivity | reflexivity | reflexivity | reflexivity
       | vm_compute; reflexivity | reflexivity |].
    exists err. split; [exact Herr|]. apply Hshort. vm_compute. reflexivity.
Defined.

Lemma open_result_shape_witness :
  open default_input missing_world no_failure tt (example_source 12 false) 0
  = (None, false,
     Some (Wrap "failed to stat source file /var/log/app.log"
             (ErrOther "no such file or directory"))).
Proof.
  apply (proj1 (proj2 (open_result_shape (Canceler := unit) default_input missing_world
                         no_failure tt (example_source 12 false) 0))).
  vm_compute. reflexivity.
Defined.

Lemma initFileOffset_forward_witness :
  exists file',
    initFileOffset {| fd := {| Stat_result := inr (example_info 12); Seek_error := None |};
                      position := 4; closed := false |} (-5) = (file', None) /\
    position file' = 4 + Z.max 0 (-5) /\ 4 <= position file'.
Proof.
  apply (proj1 (initFileOffset_forward
                  {| fd := {| Stat_result := inr (example_info 12); Seek_error := None |};
                     position := 4; closed := false |} (-5))).
  reflexivity.
Defined.

Lemma Test_and_Run_open_witness :
  exists rd,
    Run_open default_input (example_world 12) no_failure tt (example_source 12 false)
      AbsentCursor = inr (Some rd, {| Offset := 0 |}) /\
    close_ok rd = None.
Proof.
  apply (proj2 (proj2 (Test_and_Run_open (Canceler := unit) default_input (example_world 12)
                         no_failure tt close_ok (example_source 12 false)))).
  vm_compute. reflexivity.
Defined.


Lemma processing_error_once_witness :
  ls_metrics (snd (readFromSource no_bytes default_input publish_refused
                     {| Offset := 0 |} zero_metrics)) ProcessingErrors = 0 + 1.
Proof.
  apply (proj2 (processing_error_once no_bytes default_input publish_refused
                  {| Offset := 0 |} zero_metrics) (ErrOther "publisher closed")).
  vm_compute. reflexivity.
Defined.

Lemma published_events_are_kept_witness :
  map fst (ls_published (snd (readFromSource no_bytes errors_only_input dropped_then_line
                                {| Offset := 0 |} zero_metrics)))
  = [published_event errors_only_input (line "ERROR y" 8)].
Proof.
  apply (proj2 (published_events_are_kept no_bytes errors_only_input dropped_then_line
                  {| Offset := 0 |} zero_metrics)).
  vm_compute. reflexivity.
Defined.

Lemma cancellation_ends_loop_witness :
  fst (readFromSource no_bytes default_input
         [NextMessage (line "line1" 6) None; Cancelled; NextMessage (line "line2" 6) None]
         {| Offset := 0 |} zero_metrics) = Returned None /\
  ls_state (snd (readFromSource no_bytes default_input
         [NextMessage (line "line1" 6) None; Cancelled; NextMessage (line "line2" 6) None]
         {| Offset := 0 |} zero_metrics)) = {| Offset := 6 |}.
Proof.
  destruct (cancellation_ends_loop no_bytes default_input
              [NextMessage (line "line1" 6) None] [NextMessage (line "line2" 6) None]
              {| Offset := 0 |} zero_metrics MessagesRead)
    as (Hret & Hstate & _); [vm_compute; reflexivity | reflexivity |].
  split; [exact Hret | exact Hstate].
Defined.

Lemma terminal_signal_not_counted_witness :
  fst (readFromSource no_bytes default_input
         [NextError (Wrap "read /var/log/app.log" io_EOF)]
         {| Offset := 0 |} zero_metrics) = Returned None /\
  ls_metrics (snd (readFromSource no_bytes default_input
         [NextError (Wrap "read /var/log/app.log" io_EOF)]
         {| Offset := 0 |} zero_metrics)) ProcessingErrors = 0.
Proof.
  destruct (terminal_signal_not_counted no_bytes default_input [] []
              (Wrap "read /var/log/app.log" io_EOF) {| Offset := 0 |} zero_metrics)
    as (_ & Hret & Hcount & _); [reflexivity | vm_compute; reflexivity |].
  split; [exact Hret | exact Hcount].
Defined.

Lemma Run_gauges_balance_witness :
  ls_metrics (snd (Run no_bytes default_input (example_world 12) no_failure tt
                     (IsFileSource (example_source 12 false)) AbsentCursor scenario_A
                     zero_metrics)) FilesActive = 0 /\
  ls_metrics (snd (Run no_bytes default_input (example_world 12) no_failure tt
                     (IsFileSource (example_source 12 false)) AbsentCursor scenario_A
                     zero_metrics)) HarvesterOpenFiles = 0.
Proof.
  destruct (proj1 (Run_gauges_balance no_bytes default_input (example_world 12) no_failure tt
                     (IsFileSource (example_source 12 false)) AbsentCursor scenario_A
                     zero_metrics) None) as (H1 & _ & H3 & _);
    [vm_compute; reflexivity|].
  split; [exact H1 | exact H3].
Defined.

Lemma Run_error_origin_witness :
  exists err,
    Run_open default_input missing_world no_failure tt (example_source 12 false)
      AbsentCursor = inl err.
Proof.
  destruct (Run_error_origin no_bytes default_input missing_world no_failure tt
              (IsFileSource (example_source 12 false)) AbsentCursor [] zero_metrics
              (Wrap "failed to stat source file /var/log/app.log"
                 (ErrOther "no such file or directory")))
    as [(name & Hsrc) | [(fs & Hsrc & Hopen & _) | (pre & message & rest & Hscript & _)]];
    [vm_compute; reflexivity | discriminate | | destruct pre; discriminate].
  injection Hsrc as <-. eexists. exact Hopen.
Defined.

Lemma Run_truncated_as_fresh_witness :
  ls_published (snd (Run no_bytes default_input (example_world 5) no_failure tt
                       (IsFileSource (example_source 5 false)) (stored 12)
                       scenario_B zero_metrics))
  = ls_published (snd (Run no_bytes default_input (example_world 5) no_failure tt
                         (IsFileSource (example_source 5 false)) AbsentCursor
                         scenario_B zero_metrics)).
Proof.
  destruct (Run_truncated_as_fresh (Canceler := unit) no_bytes default_input (example_world 5)
              no_failure tt (example_source 5 false) 12
              {| Stat_result := inr (example_info 5); Seek_error := None |}
              (example_info 5) scenario_B zero_metrics)
    as (_ & _ & Hpub & _); [reflexivity | reflexivity | vm_compute; reflexivity |].
  exact Hpub.
Defined.

Lemma Validate_accepts_iff_witness :
  awscloudwatch.Validate (cloudwatch_config "" "app-logs" "" "eu-west-1") = None.
Proof.
  apply (proj2 (Validate_accepts_iff (cloudwatch_config "" "app-logs" "" "eu-west-1"))).
  repeat split.
  - left. reflexivity.
  - right. left. discriminate.
  - right. reflexivity.
  - right. discriminate.
Defined.

Lemma Validate_arn_alone_witness :
  awscloudwatch.Validate
    (cloudwatch_config "arn:aws:logs:eu-west-1:123456789012:log-group:app" "" "" "") = None.
Proof.
  apply (proj1 (Validate_arn_alone
                  (cloudwatch_config "arn:aws:logs:eu-west-1:123456789012:log-group:app"
                     "" "" "") eq_refl eq_refl eq_refl)).
  discriminate.
Defined.

Lemma processLogEvents_complete_witness :
  exists created,
    awscloudwatch.processLogEvents example_clock
      [awscloudwatch.example_log_event "36" "stream-a" "started";
       awscloudwatch.example_log_event "37" "stream-a" "stopped"]
      "app-logs" "eu-west-1" awscloudwatch.example_processor
    = ({| awscloudwatch.cloudwatchEventsCreatedTotal := 0 + 2;
          awscloudwatch.published := [] ++ created;
          awscloudwatch.clock_readings := 0 + 2 |}, true).
Proof.
  destruct (processLogEvents_complete example_clock
              [awscloudwatch.example_log_event "36" "stream-a" "started";
               awscloudwatch.example_log_event "37" "stream-a" "stopped"]
              "app-logs" "eu-west-1" awscloudwatch.example_processor)
    as (created & Heq & _); [repeat constructor|].
  exists created. exact Heq.
Defined.

Lemma processLogEvents_stops_witness :
  exists created,
    awscloudwatch.processLogEvents example_clock
      [awscloudwatch.example_log_event "36" "stream-a" "started"; nil_message_event;
       awscloudwatch.example_log_event "38" "stream-a" "stopped"]
      "app-logs" "eu-west-1" awscloudwatch.example_processor
    = ({| awscloudwatch.cloudwatchEventsCreatedTotal := 0 + 1;
          awscloudwatch.published := [] ++ created;
          awscloudwatch.clock_readings := 0 + 1 |}, false) /\
    length created = 1%nat.
Proof.
  apply (processLogEvents_stops example_clock
           [awscloudwatch.example_log_event "36" "stream-a" "started"]
           [awscloudwatch.example_log_event "38" "stream-a" "stopped"]
           nil_message_event "app-logs" "eu-west-1" awscloudwatch.example_processor).
  - repeat constructor.
  - reflexivity.
Defined.
